(** * Looper: interval synchronisation and volume queues

    A shallow embedding of [src/lib/Looper.ts].  Every definition follows
    the TypeScript method of the same name; the state of the class is
    passed explicitly, and a call returns, throws or fails to return.

    Numbers.  A JavaScript number is modelled by [number]: an exact
    rational, one of the two infinities, or NaN.  Arithmetic is exact
    (binary64 rounding is not modelled) and zero carries no sign; a
    property that is [undefined] and then used in arithmetic or in a
    comparison behaves as NaN, as it does in JavaScript.

    Handlers.  A function passed to [on] is an identifier; calling it
    appends the identifier and the argument to the [calls] of the
    state.

    Outside the model: the host's frame scheduler ([tick] is a step
    function), and the fields of the state that no modelled method
    reads ([trackFeatures], [active], the smoothing defaults). *)

From Stdlib Require Import QArith Qcanon Qround Lqa.
From stdpp Require Import base numbers option list sorting strings gmap.

Set Warnings "-abstract-large-number".

Local Open Scope Qc_scope.

(** ** JavaScript numbers *)

Module Js.

Inductive number : Type :=
| Fin (q : Qc)
| PInf
| NInf
| NaN.

#[global] Instance number_eq_dec : EqDecision number.
Proof. solve_decision. Defined.

Definition of_Z (z : Z) : number := Fin (Qc_of_Z z).
Definition of_nat (n : nat) : number := of_Z (Z.of_nat n).

Definition zero : number := of_Z 0.
Definition one : number := of_Z 1.

(** 0.5, as the literal in the source. *)
Definition half : number := Fin (Q2Qc (1 # 2)).

Definition neg (x : number) : number :=
  match x with
  | Fin q => Fin (- q)
  | PInf => NInf
  | NInf => PInf
  | NaN => NaN
  end.

Definition add (x y : number) : number :=
  match x, y with
  | NaN, _ | _, NaN => NaN
  | Fin a, Fin b => Fin (a + b)
  | PInf, NInf | NInf, PInf => NaN
  | PInf, _ | _, PInf => PInf
  | NInf, _ | _, NInf => NInf
  end.

Definition sub (x y : number) : number := add x (neg y).

(** Sign of an infinity multiplied or divided by the finite [q]
    (zero counts as positive: the model has no negative zero). *)
Definition signed_inf (positive : bool) : number :=
  if positive then PInf else NInf.

Definition mul (x y : number) : number :=
  match x, y with
  | NaN, _ | _, NaN => NaN
  | Fin a, Fin b => Fin (a * b)
  | Fin a, PInf | PInf, Fin a =>
      if decide (a = 0) then NaN else signed_inf (bool_decide (0 < a))
  | Fin a, NInf | NInf, Fin a =>
      if decide (a = 0) then NaN else signed_inf (bool_decide (a < 0))
  | PInf, PInf | NInf, NInf => PInf
  | PInf, NInf | NInf, PInf => NInf
  end.

Definition div (x y : number) : number :=
  match x, y with
  | NaN, _ | _, NaN => NaN
  | Fin a, Fin b =>
      if decide (b = 0)
      then (if decide (a = 0) then NaN else signed_inf (bool_decide (0 < a)))
      else Fin (a / b)
  | Fin _, (PInf | NInf) => zero
  | PInf, Fin b => signed_inf (bool_decide (0 ≤ b))
  | NInf, Fin b => signed_inf (bool_decide (b < 0))
  | (PInf | NInf), (PInf | NInf) => NaN
  end.

(** [x < y]: false as soon as one side is NaN. *)
Definition ltb (x y : number) : bool :=
  match x, y with
  | NaN, _ | _, NaN => false
  | Fin a, Fin b => bool_decide (a < b)
  | NInf, (Fin _ | PInf) => true
  | Fin _, PInf => true
  | _, _ => false
  end.

(** [x <= y]. *)
Definition leb (x y : number) : bool :=
  match x, y with
  | NaN, _ | _, NaN => false
  | Fin a, Fin b => bool_decide (a ≤ b)
  | NInf, _ | _, PInf => true
  | _, _ => false
  end.

(** [Math.min(x, y)] and [Math.max(x, y)]: NaN if either argument is. *)
Definition Math_min (x y : number) : number :=
  match x, y with
  | NaN, _ | _, NaN => NaN
  | _, _ => if ltb y x then y else x
  end.

Definition Math_max (x y : number) : number :=
  match x, y with
  | NaN, _ | _, NaN => NaN
  | _, _ => if ltb x y then y else x
  end.

(** [Math.round]: the nearest integer, halves going up. *)
Definition Math_round (x : number) : number :=
  match x with
  | Fin q => of_Z (Qfloor (q + Q2Qc (1 # 2)))
  | _ => x
  end.

(** A number that has no fractional part. *)
Definition integral (x : number) : Prop := ∃ z, x = of_Z z.

End Js.

Export Js.

Declare Scope js_scope.
Delimit Scope js_scope with js.
Bind Scope js_scope with number.
Infix "+" := add : js_scope.
Infix "-" := sub : js_scope.
Infix "*" := mul : js_scope.
Infix "/" := div : js_scope.
Infix "<?" := ltb : js_scope.
Infix "<=?" := leb : js_scope.

(** ** Completions

    A call returns, throws or never returns. *)

Inductive Error : Type := TypeError.

Inductive Completion (A : Type) : Type :=
| Normal (a : A)
| Throw (e : Error)
| Diverge.
Arguments Normal {A} a.
Arguments Throw {A} e.
Arguments Diverge {A}.

#[global] Instance Completion_ret : MRet Completion := λ A a, Normal a.

#[global] Instance Completion_bind : MBind Completion := λ A B k c,
  match c with
  | Normal a => k a
  | Throw e => Throw e
  | Diverge => Diverge
  end.

Definition returns {A} (c : Completion A) : bool :=
  match c with Normal _ => true | _ => false end.

(** ** The timing map *)

Inductive IntervalType : Type := tatums | segments | beats | bars | sections.

#[global] Instance IntervalType_eq_dec : EqDecision IntervalType.
Proof. solve_decision. Defined.

(** [state.intervalTypes], and [types] of [buildStaticIntervals]. *)
Definition intervalTypes : list IntervalType :=
  [tatums; segments; beats; bars; sections].

(** An object with one property per interval type. *)
Record PerType (A : Type) : Type := mkPerType {
  at_tatums : A;
  at_segments : A;
  at_beats : A;
  at_bars : A;
  at_sections : A
}.
Arguments mkPerType {A}.
Arguments at_tatums {A}.
Arguments at_segments {A}.
Arguments at_beats {A}.
Arguments at_bars {A}.
Arguments at_sections {A}.

Definition get {A} (t : IntervalType) (o : PerType A) : A :=
  match t with
  | tatums => at_tatums o
  | segments => at_segments o
  | beats => at_beats o
  | bars => at_bars o
  | sections => at_sections o
  end.

Definition set {A} (t : IntervalType) (a : A) (o : PerType A) : PerType A :=
  match t with
  | tatums => mkPerType a (at_segments o) (at_beats o) (at_bars o) (at_sections o)
  | segments => mkPerType (at_tatums o) a (at_beats o) (at_bars o) (at_sections o)
  | beats => mkPerType (at_tatums o) (at_segments o) a (at_bars o) (at_sections o)
  | bars => mkPerType (at_tatums o) (at_segments o) (at_beats o) a (at_sections o)
  | sections => mkPerType (at_tatums o) (at_segments o) (at_beats o) (at_bars o) a
  end.

Definition all {A} (a : A) : PerType A := mkPerType a a a a a.

(** One element of a granularity's sequence, with the five properties
    [buildStaticIntervals] writes. *)
Record Interval : Type := mkInterval {
  start : number;
  duration : number;
  loudness_start : number;
  loudness_max : number;
  loudness_max_time : number
}.

#[global] Instance Interval_eq_dec : EqDecision Interval.
Proof. solve_decision. Defined.

Definition TimingMap : Type := PerType (list Interval).

(** ** buildStaticIntervals *)

(** The [duration] object literal: a number per type, and the
    two-element array under [tatums]. *)
Record Durations : Type := mkDurations {
  d_beats : number;
  d_tatums : number * number;
  d_segments : number;
  d_sections : number;
  d_bars : number
}.

Definition durations (base : number) : Durations :=
  {| d_beats := base;
     d_tatums := ((base * (of_Z 2 / of_Z 3))%js, (base * (of_Z 1 / of_Z 3))%js);
     d_segments := (base / of_Z 2)%js;
     d_sections := (base * of_Z 16)%js;
     d_bars := (base * of_Z 4)%js |}.

(** What a property read hands to an arithmetic operator. *)
Inductive value : Type :=
| Num (n : number)
| NumArray (l : list number)
| ObjArray (l : list Interval).

(** [(duration as any)[type]] *)
Definition duration_at (d : Durations) (t : IntervalType) : value :=
  match t with
  | tatums => NumArray [fst (d_tatums d); snd (d_tatums d)]
  | segments => Num (d_segments d)
  | beats => Num (d_beats d)
  | bars => Num (d_bars d)
  | sections => Num (d_sections d)
  end.

(** ToNumber.  An array is first joined into a string: the empty array
    gives the empty string, hence 0; an array of one number gives that
    number back; anything with a comma in it, or an [[object Object]],
    is not a numeric string. *)
Definition to_number (v : value) : number :=
  match v with
  | Num n => n
  | NumArray [] => zero
  | NumArray [n] => n
  | NumArray (_ :: _ :: _) => NaN
  | ObjArray [] => zero
  | ObjArray (_ :: _) => NaN
  end.

(** [array[i - 1]]: undefined at [i = 0]. *)
Definition before {A} (l : list A) (i : nat) : option A :=
  match i with
  | O => None
  | S j => l !! j
  end.

(** The object pushed at iteration [i] of the inner loop, [analysis]
    being the object under construction as that iteration finds it. *)
Definition staticInterval (d : Durations) (analysis : TimingMap)
    (type : IntervalType) (i : nat) : Interval :=
  let tatumStart :=
    match before (get tatums analysis) i with
    | Some prev => Math_round (start prev + duration prev)%js
    | None => zero
    end in
  let tatumDuration :=
    if Nat.even i then Math_round (fst (d_tatums d)) else Math_round (snd (d_tatums d)) in
  {| start :=
       if decide (type = tatums) then tatumStart
       else (of_nat i * to_number (ObjArray (get type analysis)))%js;
     duration :=
       if decide (type = tatums) then tatumDuration
       else to_number (duration_at d type);
     loudness_start := (of_Z (-30) + (of_nat i / of_Z 10000) * of_Z 20)%js;
     loudness_max := (of_Z (-25) + (of_nat i / of_Z 10000) * of_Z 20)%js;
     loudness_max_time := (half * to_number (duration_at d type))%js |}.

Definition push (type : IntervalType) (x : Interval) (analysis : TimingMap) : TimingMap :=
  set type (get type analysis ++ [x]) analysis.

(** [for (var i = ...; i < ...; i++)], with [n] iterations left. *)
Fixpoint staticLoop (n i : nat) (d : Durations) (type : IntervalType)
    (analysis : TimingMap) : TimingMap :=
  match n with
  | O => analysis
  | S n' => staticLoop n' (S i) d type (push type (staticInterval d analysis type i) analysis)
  end.

(** The body of [types.forEach], for [count] intervals per type. *)
Definition buildIntervals (count : nat) (base : number) : TimingMap :=
  foldl (λ analysis type, staticLoop count 0 (durations base) type (set type [] analysis))
        (all []) intervalTypes.

Definition buildStaticIntervals (base : number) : TimingMap :=
  buildIntervals 10000 base.

(** The tatum pushed at index [i], by a loop that found the [tatums]
    array of [analysis] empty. *)
Definition tatumAt (d : Durations) (analysis : TimingMap) (i : nat) : Interval :=
  staticInterval d (staticLoop i 0 d tatums analysis) tatums i.

(** ** Active intervals, hooks and the reactive store *)

(** [state.activeIntervals[type]]: the properties copied from the timing
    map by the spread ([None] for the initial [{}]), then [index],
    [elapsed] and [progress], each absent until it is assigned. *)
Record ActiveInterval : Type := mkActive {
  descriptor : option Interval;
  index : option nat;
  elapsed : option number;
  progress : option number
}.

#[global] Instance ActiveInterval_eq_dec : EqDecision ActiveInterval.
Proof. solve_decision. Defined.

(** The object literal [{}]. *)
Definition emptyActive : ActiveInterval := mkActive None None None None.

(** A numeric property of the active interval, NaN when it is absent. *)
Definition prop (f : Interval → number) (a : ActiveInterval) : number :=
  from_option f NaN (descriptor a).

Definition numeric (o : option number) : number := default NaN o.

(** The keys of [LooperHooks]. *)
Inductive HookName : Type := tatum | segment | beat | bar | section.

#[global] Instance HookName_eq_dec : EqDecision HookName.
Proof. solve_decision. Defined.

(** A handler passed to [on] is known by an identifier; what it does
    when called is outside the class, so a call is recorded in
    [calls] with the argument it received. *)
Definition Callback : Type := nat.

Record LooperHooks : Type := mkHooks {
  h_tatum : list Callback;
  h_segment : list Callback;
  h_beat : list Callback;
  h_bar : list Callback;
  h_section : list Callback
}.

Definition hooks_at (n : HookName) (h : LooperHooks) : list Callback :=
  match n with
  | tatum => h_tatum h
  | segment => h_segment h
  | beat => h_beat h
  | bar => h_bar h
  | section => h_section h
  end.

Definition hooks_push (n : HookName) (m : Callback) (h : LooperHooks) : LooperHooks :=
  match n with
  | tatum => mkHooks (h_tatum h ++ [m]) (h_segment h) (h_beat h) (h_bar h) (h_section h)
  | segment => mkHooks (h_tatum h) (h_segment h ++ [m]) (h_beat h) (h_bar h) (h_section h)
  | beat => mkHooks (h_tatum h) (h_segment h) (h_beat h ++ [m]) (h_bar h) (h_section h)
  | bar => mkHooks (h_tatum h) (h_segment h) (h_beat h) (h_bar h ++ [m]) (h_section h)
  | section => mkHooks (h_tatum h) (h_segment h) (h_beat h) (h_bar h) (h_section h ++ [m])
  end.

(** A function given to [activeIntervals.watch].  The class registers
    only arrow functions of the shape
    [(v) => this.hooks.NAME.forEach(h => h(v))]; [ForEachHook NAME]
    stands for that closure. *)
Inductive Watcher : Type := ForEachHook (name : HookName).

(** ** Volume queues *)

Module VolumeQueue.

(** The object literal of [registerQueue].  [totalSamples] and
    [smoothing] are typed [any]: a number here, or [None] for
    [undefined].  [min] and [max] hold what d3-array returns, which is
    [undefined] when no sample is comparable. *)
Record t : Type := mk {
  totalSamples : option number;
  smoothing : option number;
  values : list number;
  volume : number;
  average : number;
  min : option number;
  max : option number;
  mode : string
}.

#[global] Instance t_eq_dec : EqDecision t.
Proof. solve_decision. Defined.

(** The names of its properties, in creation order. *)
Definition keys : list string :=
  ["totalSamples"; "smoothing"; "values"; "volume"; "average"; "min"; "max"; "mode"].

End VolumeQueue.

(** [state.volumeQueues], a plain object used as a dictionary.  [own]
    holds its own properties.  Assigning to the key [__proto__] does
    not create a property: it replaces the prototype of the object,
    which is [Object.prototype] ([None]) until then. *)
Record VolumeQueues : Type := mkQueues {
  own : gmap string VolumeQueue.t;
  proto : option VolumeQueue.t
}.

(** The property names every plain object inherits from
    [Object.prototype]. *)
Definition object_prototype_keys : list string :=
  ["constructor"; "__defineGetter__"; "__defineSetter__"; "hasOwnProperty";
   "__lookupGetter__"; "__lookupSetter__"; "isPrototypeOf";
   "propertyIsEnumerable"; "toString"; "valueOf"; "__proto__"; "toLocaleString"].

(** ** The state of a Looper

    The fields of [this.state] and [this.hooks] that the methods below
    read or write, the watchers of the [activeIntervals] store, and the
    record of the handler calls made so far. *)
Record State : Type := mkState {
  trackAnalysis : TimingMap;
  activeIntervals : PerType ActiveInterval;
  watchers : PerType (list Watcher);
  hooks : LooperHooks;
  initialTrackProgress : number;
  initialStart : number;
  trackProgress : number;
  volumeQueues : VolumeQueues;
  calls : list (Callback * ActiveInterval)
}.

Definition with_activeIntervals (a : PerType ActiveInterval) (st : State) : State :=
  mkState (trackAnalysis st) a (watchers st) (hooks st) (initialTrackProgress st)
          (initialStart st) (trackProgress st) (volumeQueues st) (calls st).

Definition with_watchers (w : PerType (list Watcher)) (st : State) : State :=
  mkState (trackAnalysis st) (activeIntervals st) w (hooks st) (initialTrackProgress st)
          (initialStart st) (trackProgress st) (volumeQueues st) (calls st).

Definition with_hooks (h : LooperHooks) (st : State) : State :=
  mkState (trackAnalysis st) (activeIntervals st) (watchers st) h (initialTrackProgress st)
          (initialStart st) (trackProgress st) (volumeQueues st) (calls st).

Definition with_trackProgress (p : number) (st : State) : State :=
  mkState (trackAnalysis st) (activeIntervals st) (watchers st) (hooks st)
          (initialTrackProgress st) (initialStart st) p (volumeQueues st) (calls st).

Definition with_volumeQueues (q : VolumeQueues) (st : State) : State :=
  mkState (trackAnalysis st) (activeIntervals st) (watchers st) (hooks st)
          (initialTrackProgress st) (initialStart st) (trackProgress st) q (calls st).

Definition with_calls (c : list (Callback * ActiveInterval)) (st : State) : State :=
  mkState (trackAnalysis st) (activeIntervals st) (watchers st) (hooks st)
          (initialTrackProgress st) (initialStart st) (trackProgress st) (volumeQueues st) c.

(** Modelled from the spec: [Observe] (utils/Observe) is not among the
    sources.  Section 4.5 of the specification: [watch(key, callback)]
    registers a callback invoked synchronously whenever that key's value
    is replaced, not when it is mutated in place; the callback receives
    the new value. *)
Definition watch (key : IntervalType) (w : Watcher) (st : State) : State :=
  with_watchers (set key (get key (watchers st) ++ [w]) (watchers st)) st.

(** Calling a watcher with the value [v]. *)
Definition run_watcher (v : ActiveInterval) (st : State) (w : Watcher) : State :=
  match w with
  | ForEachHook name =>
      with_calls (calls st ++ map (λ h, (h, v)) (hooks_at name (hooks st))) st
  end.

(** Modelled from the spec: the assignment [activeIntervals[key] = v] on
    the store made by [Observe]; it replaces the value, then calls the
    watchers of [key] in registration order. *)
Definition replace (key : IntervalType) (v : ActiveInterval) (st : State) : State :=
  foldl (run_watcher v) (with_activeIntervals (set key v (activeIntervals st)) st)
        (get key (watchers st)).

(** ** subscribeHooks and on *)

(** For every interval type [t], a watcher on [activeIntervals[t]]
    that runs [this.hooks.segment.forEach(h => h(v))]. *)
Definition subscribeHooks (st : State) : State :=
  foldl (λ s t, watch t (ForEachHook segment) s) st intervalTypes.

(** [this.hooks[interval].push(method)] *)
Definition on (interval : HookName) (method : Callback) (st : State) : State :=
  with_hooks (hooks_push interval method (hooks st)) st.

(** ** setActiveIntervals *)

(** The [for] loop of [determineInterval], at index [i] with [n]
    iterations left.  Reading [.start] of an element that is not there
    throws; falling out of the loop returns [undefined]. *)
Fixpoint determineLoop (n i : nat) (analysis : list Interval) (progress : number)
    : Completion (option nat) :=
  match n with
  | O => Normal None
  | S n' =>
      if decide (Z.of_nat i = Z.of_nat (length analysis) - 1)%Z then Normal (Some i)
      else
        match analysis !! i with
        | None => Throw TypeError
        | Some cur =>
            if (start cur <? progress)%js then
              match analysis !! (i + 1)%nat with
              | None => Throw TypeError
              | Some nxt =>
                  if (progress <? start nxt)%js then Normal (Some i)
                  else determineLoop n' (S i) analysis progress
              end
            else determineLoop n' (S i) analysis progress
        end
  end.

Definition determineInterval (analysis : list Interval) (progress : number)
    : Completion (option nat) :=
  determineLoop (length analysis) 0 analysis progress.

(** [{ ...this.state.trackAnalysis[type][index], index }] *)
Definition spread (analysis : list Interval) (i : option nat) : ActiveInterval :=
  mkActive (i ≫= λ k, analysis !! k) i None None.

(** The body of [intervalTypes.forEach] in [setActiveIntervals], once
    [determineInterval] has returned [i]: the active interval is
    replaced if the index differs, then [elapsed] and [progress] are
    written into the object in place. *)
Definition activate (type : IntervalType) (i : option nat) (st : State) : State :=
  let st1 :=
    if decide (i ≠ index (get type (activeIntervals st)))
    then replace type (spread (get type (trackAnalysis st)) i) st
    else st in
  let a := get type (activeIntervals st1) in
  let e := (trackProgress st1 - prop start a)%js in
  let a' := mkActive (descriptor a) (index a) (Some e) (Some (e / prop duration a)%js) in
  with_activeIntervals (set type a' (activeIntervals st1)) st1.

Definition setActiveInterval (st : State) (type : IntervalType) : Completion State :=
  i ← determineInterval (get type (trackAnalysis st)) (trackProgress st);
  mret (activate type i st).

Definition setActiveIntervals (st : State) : Completion State :=
  foldl (λ c type, s ← c; setActiveInterval s type) (mret st) intervalTypes.

(** ** getVolume *)

(** d3-interpolate's [interpolateNumber(a, b)(t)]. *)
Definition interpolateNumber (a b t : number) : number :=
  (a * (one - t) + b * t)%js.

(** [this.state.trackAnalysis.segments[index + 1]]; [undefined + 1] is
    NaN, which names no element. *)
Definition successor (st : State) (interval : ActiveInterval) : option Interval :=
  index interval ≫= λ i, get segments (trackAnalysis st) !! (i + 1)%nat.

Definition getVolume (st : State) (interval : ActiveInterval) : number :=
  let loudness_max := prop loudness_max interval in
  let loudness_start_ := prop loudness_start interval in
  let loudness_max_time := prop loudness_max_time interval in
  let duration := prop duration interval in
  let elapsed := numeric (elapsed interval) in
  let start := prop start interval in
  match successor st interval with
  | None => zero
  | Some nxt =>
      let next := loudness_start nxt in
      let current := (start + elapsed)%js in
      if (elapsed <? loudness_max_time)%js then
        let progress := Math_max (Math_min one (elapsed / loudness_max_time)%js) zero in
        interpolateNumber loudness_start_ loudness_max progress
      else
        let _start := (start + loudness_max_time)%js in
        let _elapsed := (current - _start)%js in
        let _duration := (duration - loudness_max_time)%js in
        let progress := Math_max (Math_min one (_elapsed / _duration)%js) zero in
        interpolateNumber loudness_max next progress
  end.

(** [getVolume()] with its default argument. *)
Definition getVolume_default (st : State) : number :=
  getVolume st (get segments (activeIntervals st)).

(** ** registerQueue, processVolumeQueues, getVolumeQueue *)

(** [this.state.volumeQueues[name] = q] *)
Definition assign (name : string) (q : VolumeQueue.t) (o : VolumeQueues) : VolumeQueues :=
  if decide (name = "__proto__") then mkQueues (own o) (Some q)
  else mkQueues (<[name := q]> (own o)) (proto o).

(** The queue object that [volumeQueues[name]] evaluates to, if it
    evaluates to one. *)
Definition queue_at (name : string) (o : VolumeQueues) : option VolumeQueue.t :=
  if decide (name = "__proto__") then proto o else own o !! name.

Definition registerQueue (name : string) (totalSamples smoothing : option number)
    (mode : option string) (st : State) : State :=
  let queue :=
    {| VolumeQueue.totalSamples := totalSamples;
       VolumeQueue.smoothing := smoothing;
       VolumeQueue.values := [zero; one];
       VolumeQueue.volume := half;
       VolumeQueue.average := half;
       VolumeQueue.min := Some zero;
       VolumeQueue.max := Some one;
       VolumeQueue.mode := default "average" mode |} in
  with_volumeQueues (assign name queue (volumeQueues st)) st.

(** Modelled from the spec: [average] (utils/array) is not among the
    sources; the arithmetic mean of the samples. *)
Definition average (l : list number) : number :=
  (foldl add zero l / of_nat (length l))%js.

(** d3-array's [min] and [max]: NaN is skipped, and the result is
    [undefined] when nothing is left. *)
Definition d3_min (l : list number) : option number :=
  foldl (λ m v,
    match v, m with
    | NaN, _ => m
    | _, None => Some v
    | _, Some x => if (v <? x)%js then Some v else m
    end) None l.

Definition d3_max (l : list number) : option number :=
  foldl (λ m v,
    match v, m with
    | NaN, _ => m
    | _, None => Some v
    | _, Some x => if (x <? v)%js then Some v else m
    end) None l.

(** d3-scale's [scaleLinear().domain([d0, d1])] applied to [x]: the
    default range is [0, 1] and the scale does not clamp.  Where the
    library answers [undefined] (an input that is not a number) the
    model has NaN. *)
Definition normalize (a b x : number) : number :=
  match (b - a)%js with
  | NaN => NaN
  | Fin q => if decide (q = 0) then half else ((x - a) / Fin q)%js
  | w => ((x - a) / w)%js
  end.

Definition scaleLinear_domain (d0 d1 x : number) : number :=
  if (d1 <? d0)%js then interpolateNumber one zero (normalize d1 d0 x)
  else interpolateNumber zero one (normalize d0 d1 x).

(** ToIntegerOrInfinity of a finite number: towards zero. *)
Definition truncate (q : Qc) : Z :=
  if bool_decide (0 ≤ q) then Qfloor q else Qceiling q.

(** [l.slice(0, bound)] *)
Definition slice_to {A} (l : list A) (bound : option number) : list A :=
  match bound with
  | None | Some PInf => l
  | Some NaN | Some NInf => []
  | Some (Fin q) =>
      let k := truncate q in
      if (k <? 0)%Z then take (Z.to_nat (Z.of_nat (length l) + k)) l
      else take (Z.to_nat k) l
  end.

(** [while (values.length > totalSamples) values.pop()], with [n] an
    upper bound on the pops that still remove something.  Once the
    array is empty [pop] changes nothing, so a test that still holds
    then holds for ever. *)
Fixpoint evict (n : nat) (totalSamples : number) (values : list number)
    : Completion (list number) :=
  if (totalSamples <? of_nat (length values))%js then
    match n with
    | O => Diverge
    | S n' => evict n' totalSamples (removelast values)
    end
  else Normal values.

(** The body of the [for ... in] loop of [processVolumeQueues]. *)
Definition processQueue (volume : number) (queue : VolumeQueue.t)
    : Completion VolumeQueue.t :=
  let values := volume :: VolumeQueue.values queue in
  values ← evict (length values) (numeric (VolumeQueue.totalSamples queue)) values;
  let avg := average values in
  let lo := d3_min values in
  let hi := d3_max values in
  let sizeScale :=
    scaleLinear_domain (numeric lo)
      (if decide (VolumeQueue.mode queue = "average") then avg else numeric hi) in
  let latest := average (slice_to values (VolumeQueue.smoothing queue)) in
  mret {| VolumeQueue.totalSamples := VolumeQueue.totalSamples queue;
          VolumeQueue.smoothing := VolumeQueue.smoothing queue;
          VolumeQueue.values := values;
          VolumeQueue.volume := sizeScale latest;
          VolumeQueue.average := avg;
          VolumeQueue.min := lo;
          VolumeQueue.max := hi;
          VolumeQueue.mode := VolumeQueue.mode queue |}.

(** The enumerable properties [for ... in] finds on the prototype
    chain after the own ones: those of a queue installed as prototype
    that no own property hides. *)
Definition inherited_enumerable (o : VolumeQueues) : list string :=
  match proto o with
  | None => []
  | Some _ => filter (λ k, own o !! k = None) VolumeQueue.keys
  end.

(** [for (let key in this.state.volumeQueues)].  The body changes only
    the queue it visits and never throws on a queue, so the order of
    the own keys does not show in the result: the loop runs for ever if
    the body does on some queue.  An inherited key names a number, a
    string or an array, none of which has a [values] array to
    [unshift]: there the body throws. *)
Definition processVolumeQueues (st : State) : Completion State :=
  let volume := getVolume_default st in
  let o := volumeQueues st in
  if decide (map_Forall (λ _ q, returns (processQueue volume q)) (own o)) then
    match inherited_enumerable o with
    | [] =>
        let step q := match processQueue volume q with Normal q' => Some q' | _ => None end in
        mret (with_volumeQueues (mkQueues (omap step (own o)) (proto o)) st)
    | _ :: _ => Throw TypeError
    end
  else Diverge.

(** What [getVolumeQueue] returns: a number, or [undefined]. *)
Definition getVolumeQueue (name : string) (st : State) : Completion (option number) :=
  let o := volumeQueues st in
  match queue_at name o with
  | Some q => mret (Some (VolumeQueue.volume q))
  | None =>
      if decide (name ∈ object_prototype_keys) then mret None
      else
        match proto o with
        | Some q =>
            if decide (name = "totalSamples") then
              (if VolumeQueue.totalSamples q is Some _ then mret None else Throw TypeError)
            else if decide (name = "smoothing") then
              (if VolumeQueue.smoothing q is Some _ then mret None else Throw TypeError)
            else if decide (name = "min") then
              (if VolumeQueue.min q is Some _ then mret None else Throw TypeError)
            else if decide (name = "max") then
              (if VolumeQueue.max q is Some _ then mret None else Throw TypeError)
            else if decide (name ∈ VolumeQueue.keys) then mret None
            else Throw TypeError
        | None => Throw TypeError
        end
  end.

(** ** tick and the constructor *)

(** One frame.  Asking the host for the next frame is the caller's
    side of the loop: [ticks] below feeds the timestamps one by one. *)
Definition tick (now : number) (st : State) : Completion State :=
  let st := with_trackProgress (now - initialStart st + initialTrackProgress st)%js st in
  st ← setActiveIntervals st;
  processVolumeQueues st.

Fixpoint ticks (nows : list number) (st : State) : Completion State :=
  match nows with
  | [] => mret st
  | now :: rest => st' ← tick now st; ticks rest st'
  end.

Definition with_trackAnalysis (m : TimingMap) (st : State) : State :=
  mkState m (activeIntervals st) (watchers st) (hooks st) (initialTrackProgress st)
          (initialStart st) (trackProgress st) (volumeQueues st) (calls st).

(** The object handed to [Observe] in the constructor, with the
    initial [hooks]. *)
Definition initialState : State :=
  {| trackAnalysis := all [];
     activeIntervals := all emptyActive;
     watchers := all [];
     hooks := mkHooks [] [] [] [] [];
     initialTrackProgress := zero;
     initialStart := zero;
     trackProgress := zero;
     volumeQueues := mkQueues ∅ None;
     calls := [] |}.

(** The constructor, up to the request for the first frame, when the
    timing map it stores is [analysis]. *)
Definition looperWith (analysis : TimingMap) : State :=
  with_trackAnalysis analysis (subscribeHooks initialState).

(** The constructor; [staticIntervalBaseDuration] defaults to 2000. *)
Definition new_Looper (staticIntervalBaseDuration : option number) : State :=
  let base := default (of_Z 2000) staticIntervalBaseDuration in
  looperWith (buildStaticIntervals base).

(** ** Notions used by the statements *)

(** A sequence ordered by [start]. *)
Definition ordered (analysis : list Interval) : Prop :=
  StronglySorted (λ x y, (start x <=? start y)%js = true) analysis.

(** The test of [determineInterval] at index [i]: [progress] lies
    strictly between the start of element [i] and that of the next. *)
Definition inside (analysis : list Interval) (progress : number) (i : nat) : bool :=
  match analysis !! i, analysis !! (i + 1)%nat with
  | Some cur, Some nxt => (start cur <? progress)%js && (progress <? start nxt)%js
  | _, _ => false
  end.

(** The index [determineInterval] finds for [type] in the state [st]. *)
Definition resolve (st : State) (type : IntervalType) : option nat :=
  match determineInterval (get type (trackAnalysis st)) (trackProgress st) with
  | Normal i => i
  | _ => None
  end.

(** The handler calls a watcher makes when it is given [v]. *)
Definition notified (h : LooperHooks) (v : ActiveInterval) (w : Watcher)
    : list (Callback * ActiveInterval) :=
  match w with
  | ForEachHook name => map (λ c, (c, v)) (hooks_at name h)
  end.

(** The handler calls [setActiveIntervals] makes for [type]: none if
    the index found is the one already active. *)
Definition announced (st : State) (type : IntervalType) : list (Callback * ActiveInterval) :=
  if decide (resolve st type ≠ index (get type (activeIntervals st)))
  then flat_map (notified (hooks st) (spread (get type (trackAnalysis st)) (resolve st type)))
                (get type (watchers st))
  else [].

(** Queues that [processVolumeQueues] can go through: no queue was
    installed as prototype, and no capacity is negative. *)
Definition runnable (o : VolumeQueues) : Prop :=
  proto o = None ∧
  map_Forall (λ _ q, (numeric (VolumeQueue.totalSamples q) <? zero)%js = false) (own o).

(** The queue [registerQueue] creates. *)
Definition bootstrap (totalSamples smoothing : option number) (mode : option string)
    : VolumeQueue.t :=
  {| VolumeQueue.totalSamples := totalSamples;
     VolumeQueue.smoothing := smoothing;
     VolumeQueue.values := [zero; one];
     VolumeQueue.volume := half;
     VolumeQueue.average := half;
     VolumeQueue.min := Some zero;
     VolumeQueue.max := Some one;
     VolumeQueue.mode := default "average" mode |}.

(** Linear interpolation from [a] to [b] at the fraction [t]. *)
Definition lerp (a b t : number) : number := (a + (b - a) * t)%js.

(** [x] clamped to the interval from 0 to 1. *)
Definition clamp01 (x : number) : number :=
  if (x <? zero)%js then zero else if (one <? x)%js then one else x.

(** The two-phase interpolation of section 4.3 of the specification:
    from [loudness_start] to [loudness_max] while [elapsed] is below
    [loudness_max_time], from [loudness_max] to the next segment's
    [loudness_start] afterwards, each at its clamped fraction. *)
Definition twoPhase (loudness_start loudness_max loudness_max_time duration
    elapsed next : number) : number :=
  if (elapsed <? loudness_max_time)%js then
    lerp loudness_start loudness_max (clamp01 (elapsed / loudness_max_time)%js)
  else
    lerp loudness_max next
      (clamp01 ((elapsed - loudness_max_time) / (duration - loudness_max_time))%js).

(** [v] lies between [a] and [b], whichever is the larger. *)
Definition between (a b v : Qc) : Prop := a ≤ v ≤ b ∨ b ≤ v ≤ a.

(** ** Sample data

    A three-interval sequence with starts 0, 10 and 20, each interval
    lasting 10 and reaching its loudest point after 5. *)
Definition sampleInterval (s : Z) : Interval :=
  {| start := of_Z s;
     duration := of_Z 10;
     loudness_start := of_Z (-30);
     loudness_max := of_Z (-25);
     loudness_max_time := of_Z 5 |}.

Definition sampleSequence : list Interval :=
  [sampleInterval 0; sampleInterval 10; sampleInterval 20].

(** A Looper whose timing map holds the sample sequence at every
    granularity. *)
Definition sampleState : State := looperWith (all sampleSequence).

(** The sample Looper with a queue of three samples named bass, and
    the same after frames at times 1, 2, 12 and 13. *)
Definition sampleQueued : State :=
  registerQueue "bass" (Some (of_nat 3)) (Some (of_Z 2)) None sampleState.

Definition sampleTicked : State :=
  match ticks [of_Z 1; of_Z 2; of_Z 12; of_Z 13] sampleQueued with
  | Normal st => st
  | _ => sampleQueued
  end.

(** Its first segment, [elapsed] into it. *)
Definition sampleActive (elapsed : Z) : ActiveInterval :=
  {| descriptor := Some (sampleInterval 0);
     index := Some 0%nat;
     elapsed := Some (of_Z elapsed);
     progress := Some (of_Z elapsed / of_Z 10)%js |}.

(** ** resetVolumeQueues *)

(** The five assignments of the loop body. *)
Definition resetQueue (queue : VolumeQueue.t) : VolumeQueue.t :=
  {| VolumeQueue.totalSamples := VolumeQueue.totalSamples queue;
     VolumeQueue.smoothing := VolumeQueue.smoothing queue;
     VolumeQueue.values := [zero; one];
     VolumeQueue.volume := half;
     VolumeQueue.average := half;
     VolumeQueue.min := Some zero;
     VolumeQueue.max := Some one;
     VolumeQueue.mode := VolumeQueue.mode queue |}.

(** [for (let key in this.state.volumeQueues)] again.  Under an
    inherited key the body finds a number, a string or [undefined],
    where the assignment to [volume] throws in the strict code of a
    class, or, under [values], an array, which takes the assignments
    as properties of its own. *)
Definition resetVolumeQueues (st : State) : Completion State :=
  let o := volumeQueues st in
  match filter (λ k, k ≠ "values") (inherited_enumerable o) with
  | [] => mret (with_volumeQueues (mkQueues (resetQueue <$> own o) (proto o)) st)
  | _ :: _ => Throw TypeError
  end.

(** ** Sequences of calls

    What a user of the class does with an instance: register handlers
    and queues, let frames pass, reset the queues. *)
Inductive Call : Type :=
| CallOn (interval : HookName) (method : Callback)
| CallRegisterQueue (name : string) (totalSamples smoothing : option number)
    (mode : option string)
| CallTick (now : number)
| CallResetVolumeQueues.

Definition call (c : Call) (st : State) : Completion State :=
  match c with
  | CallOn interval method => mret (on interval method st)
  | CallRegisterQueue name totalSamples smoothing mode =>
      mret (registerQueue name totalSamples smoothing mode st)
  | CallTick now => tick now st
  | CallResetVolumeQueues => resetVolumeQueues st
  end.

Fixpoint run (cs : list Call) (st : State) : Completion State :=
  match cs with
  | [] => mret st
  | c :: rest => st' ← call c st; run rest st'
  end.

(** ** Further notions used by the statements *)

(** Every active interval carries the properties of the element of the
    timing map found at its index. *)
Definition linked (st : State) : Prop :=
  ∀ t, descriptor (get t (activeIntervals st)) =
       index (get t (activeIntervals st)) ≫= λ k, get t (trackAnalysis st) !! k.

(** The watchers are those [subscribeHooks] registers, once. *)
Definition subscribed (st : State) : Prop :=
  watchers st = all [ForEachHook segment].

(** The start of the tatum at index [i] when the long and the short
    tatum last [long] and [short]. *)
Definition tatumStart (long short : Z) (i : nat) : Z :=
  (Z.of_nat (i / 2) * (long + short) + Z.of_nat (i mod 2) * long)%Z.

(** The active interval of [type] that [setActiveIntervals] leaves
    when it starts from [st]: the fresh copy if the index changes, the
    old object otherwise, with [elapsed] and [progress] written. *)
Definition settled (st : State) (type : IntervalType) : ActiveInterval :=
  let a :=
    if decide (resolve st type ≠ index (get type (activeIntervals st)))
    then spread (get type (trackAnalysis st)) (resolve st type)
    else get type (activeIntervals st) in
  let e := (trackProgress st - prop start a)%js in
  mkActive (descriptor a) (index a) (Some e) (Some (e / prop duration a)%js).

(** * Properties *)

(** A closed decidable statement, settled by evaluating its decision
    procedure. *)
Ltac evaluate := apply (bool_decide_unpack _); vm_compute; exact I.

(** ** Numbers *)

Section Numbers.

Implicit Types (x y : number) (a b : Qc) (z : Z).

Lemma ltb_irrefl x : (x <? x)%js = false.
Proof.
  destruct x; simpl; try done.
  apply bool_decide_eq_false, Qcle_not_lt, Qcle_refl.
Qed.

Lemma leb_not_ltb x y : (x <=? y)%js = true → (y <? x)%js = false.
Proof.
  destruct x, y; simpl; try done.
  rewrite bool_decide_eq_true, bool_decide_eq_false. apply Qcle_not_lt.
Qed.

Lemma leb_trans x y w : (x <=? y)%js = true → (y <=? w)%js = true → (x <=? w)%js = true.
Proof.
  destruct x, y, w; simpl; try done.
  rewrite !bool_decide_eq_true. apply Qcle_trans.
Qed.

Lemma of_Z_add z1 z2 : (of_Z z1 + of_Z z2)%js = of_Z (z1 + z2).
Proof. unfold of_Z; simpl. by rewrite Z2Qc_inj_add. Qed.

Lemma Qfloor_add_half z : Qfloor (Qc_of_Z z + Q2Qc (1 # 2)) = z.
Proof.
  transitivity (Qfloor (inject_Z z + (1 # 2))%Q).
  - apply Qfloor_comp. simpl. rewrite !Qred_correct. reflexivity.
  - simpl. change (Z.pos (1 * 2)) with 2%Z.
    rewrite Z.div_add_l by lia. rewrite (Z.div_small (1 * 1) 2) by lia. lia.
Qed.

Lemma Math_round_of_Z z : Math_round (of_Z z) = of_Z z.
Proof. unfold Math_round, of_Z. by rewrite Qfloor_add_half. Qed.

Lemma Math_round_integral a : integral (Math_round (Fin a)).
Proof. by eexists. Qed.

Lemma Math_round_add_integral x y :
  integral x → integral y → Math_round (x + y)%js = (x + y)%js.
Proof. intros [z1 ->] [z2 ->]. by rewrite of_Z_add, Math_round_of_Z. Qed.

Lemma mul_NaN_r x : (x * NaN)%js = NaN.
Proof. by destruct x. Qed.

End Numbers.

(** ** The synthesised timing map *)

Section StaticIntervals.

Implicit Types (d : Durations) (t type : IntervalType) (analysis : TimingMap).

Lemma get_set {A} t (a : A) o : get t (set t a o) = a.
Proof. by destruct t. Qed.

Lemma get_set_ne {A} t t' (a : A) o : t ≠ t' → get t' (set t a o) = get t' o.
Proof. by destruct t, t'. Qed.

Lemma get_all {A} t (a : A) : get t (all a) = a.
Proof. by destruct t. Qed.

Lemma get_push type x analysis : get type (push type x analysis) = get type analysis ++ [x].
Proof. apply get_set. Qed.

(** The last iteration of the loop pushes onto what the earlier ones built. *)
Lemma staticLoop_snoc n i d type analysis :
  staticLoop (S n) i d type analysis =
  let built := staticLoop n i d type analysis in
  push type (staticInterval d built type (i + n)) built.
Proof.
  revert i analysis. induction n as [|n IH]; intros i analysis.
  - simpl. by rewrite Nat.add_0_r.
  - change (staticLoop (S (S n)) i d type analysis)
      with (staticLoop (S n) (S i) d type (push type (staticInterval d analysis type i) analysis)).
    rewrite IH. simpl. by rewrite Nat.add_succ_r.
Qed.

Lemma staticLoop_other n i d type t analysis :
  type ≠ t → get t (staticLoop n i d type analysis) = get t analysis.
Proof.
  intros Hne. revert i analysis. induction n as [|n IH]; intros i analysis; [done|].
  simpl. rewrite IH. by apply get_set_ne.
Qed.

Lemma staticLoop_length n i d type analysis :
  length (get type (staticLoop n i d type analysis)) = (length (get type analysis) + n)%nat.
Proof.
  induction n as [|n IH]; [simpl; lia|].
  rewrite staticLoop_snoc. cbv zeta. rewrite get_push, length_app, IH. simpl. lia.
Qed.

(** Element [k] is the object pushed by iteration [k], built from the
    state that iteration found. *)
Lemma staticLoop_lookup n k d type analysis :
  get type analysis = [] → (k < n)%nat →
  get type (staticLoop n 0 d type analysis) !! k =
  Some (staticInterval d (staticLoop k 0 d type analysis) type k).
Proof.
  intros Hnil. induction n as [|n IH]; intros Hk; [lia|].
  rewrite staticLoop_snoc. cbv zeta. rewrite get_push.
  pose proof (staticLoop_length n 0 d type analysis) as Hlen.
  rewrite Hnil in Hlen. simpl in Hlen.
  destruct (decide (k = n)) as [->|Hne].
  - rewrite lookup_app_r by lia. by rewrite Hlen, Nat.sub_diag.
  - rewrite lookup_app_l by lia. apply IH. lia.
Qed.

(** Each type's sequence comes out of its own run of the loop. *)
Lemma buildIntervals_get count base type :
  ∃ analysis, get type analysis = [] ∧
    get type (buildIntervals count base) =
    get type (staticLoop count 0 (durations base) type analysis).
Proof.
  unfold buildIntervals, intervalTypes. cbn [foldl].
  destruct type;
    repeat (rewrite staticLoop_other by done; rewrite get_set_ne by done);
    eexists; (split; [|reflexivity]); apply get_set.
Qed.

Lemma buildIntervals_length count base type :
  length (get type (buildIntervals count base)) = count.
Proof.
  destruct (buildIntervals_get count base type) as (analysis & Hnil & ->).
  by rewrite staticLoop_length, Hnil.
Qed.

Lemma buildIntervals_lookup count base type :
  ∃ analysis, get type analysis = [] ∧
    ∀ i, (i < count)%nat →
      get type (buildIntervals count base) !! i =
      Some (staticInterval (durations base)
              (staticLoop i 0 (durations base) type analysis) type i).
Proof.
  destruct (buildIntervals_get count base type) as (analysis & Hnil & Heq).
  exists analysis. split; [done|]. intros i Hi.
  rewrite Heq. by apply staticLoop_lookup.
Qed.

(** Outside [tatums], [start] is the index times the array being
    filled: 0 times 0 at the first index, NaN from then on. *)
Lemma staticInterval_start_NaN d analysis type i :
  type ≠ tatums → get type analysis ≠ [] →
  start (staticInterval d analysis type i) = NaN.
Proof.
  intros Hne Hnil. simpl. rewrite decide_False by done.
  by destruct (get type analysis).
Qed.

Lemma staticInterval_duration d analysis type i :
  type ≠ tatums →
  duration (staticInterval d analysis type i) = to_number (duration_at d type).
Proof. intros Hne. simpl. by rewrite decide_False. Qed.

Lemma tatumAt_duration d analysis i :
  duration (tatumAt d analysis i) =
  if Nat.even i then Math_round (fst (d_tatums d)) else Math_round (snd (d_tatums d)).
Proof. done. Qed.

Lemma tatumAt_start_0 d analysis :
  get tatums analysis = [] → start (tatumAt d analysis 0) = zero.
Proof. intros Hnil. unfold tatumAt. simpl. done. Qed.

Lemma tatumAt_start_S d analysis i :
  get tatums analysis = [] →
  start (tatumAt d analysis (S i)) =
  Math_round (start (tatumAt d analysis i) + duration (tatumAt d analysis i))%js.
Proof.
  intros Hnil. unfold tatumAt at 1.
  unfold staticInterval. cbn [start]. rewrite decide_True by done.
  cbn [before]. rewrite staticLoop_lookup by (done || lia). done.
Qed.

Lemma tatum_durations_finite (b : Qc) :
  ∃ long short,
    fst (d_tatums (durations (Fin b))) = Fin long ∧
    snd (d_tatums (durations (Fin b))) = Fin short.
Proof.
  unfold durations, div, of_Z. cbn [d_tatums fst snd].
  rewrite decide_False by (rewrite <- Z2Qc_inj_0; by intros ?%Z2Qc_inj).
  simpl. eauto.
Qed.

Lemma tatumAt_duration_integral (b : Qc) analysis i :
  integral (duration (tatumAt (durations (Fin b)) analysis i)).
Proof.
  rewrite tatumAt_duration.
  destruct (tatum_durations_finite b) as (long & short & -> & ->).
  destruct (Nat.even i); apply Math_round_integral.
Qed.

Lemma tatumAt_start_integral (b : Qc) analysis i :
  get tatums analysis = [] →
  integral (start (tatumAt (durations (Fin b)) analysis i)).
Proof.
  intros Hnil. induction i as [|i IH].
  - rewrite tatumAt_start_0 by done. by exists 0%Z.
  - rewrite tatumAt_start_S by done.
    rewrite Math_round_add_integral by (done || apply tatumAt_duration_integral).
    destruct IH as [z1 ->].
    destruct (tatumAt_duration_integral b analysis i) as [z2 ->].
    rewrite of_Z_add. by eexists.
Qed.

End StaticIntervals.

(** C1 (defect in the code).  For beats, segments, bars and sections the
    interval at index [i] should start at [i] times the duration of its
    granularity.  [buildStaticIntervals] multiplies [i] by
    [analysis[type]], the array being filled, instead of
    [duration[type]]: at every index from 1 to 9999 the start it stores
    is NaN, for every base duration, while the duration stored beside it
    is the expected one. *)
Theorem buildStaticIntervals_start_NaN (base : number) (type : IntervalType) (i : nat) :
  type ≠ tatums → (1 ≤ i < 10000)%nat →
  ∃ x, get type (buildStaticIntervals base) !! i = Some x ∧
       start x = NaN ∧
       duration x = to_number (duration_at (durations base) type).
Proof.
  intros Hne [Hlo Hhi].
  destruct (buildIntervals_lookup 10000 base type) as (analysis & Hnil & Hget).
  eexists. split; [by apply Hget|]. split.
  - apply staticInterval_start_NaN; [done|].
    intros Hempty. apply (f_equal length) in Hempty.
    rewrite staticLoop_length, Hnil in Hempty. simpl in Hempty. lia.
  - by apply staticInterval_duration.
Qed.

Lemma buildStaticIntervals_start_NaN_witness :
  (beats ≠ tatums ∧ (1 ≤ 1 < 10000)%nat) ∧
  ∃ x, get beats (buildStaticIntervals (of_Z 2000)) !! 1%nat = Some x ∧
       start x = NaN ∧ duration x = of_Z 2000.
Proof.
  split; [split; [discriminate | vm_compute; lia]|].
  apply (buildStaticIntervals_start_NaN (of_Z 2000) beats 1);
    [discriminate | vm_compute; lia].
Defined.

(** Every tatum of the synthesised map, for a finite base duration. *)
Lemma tatums_lookup (b : Qc) :
  ∃ analysis, get tatums analysis = [] ∧
    ∀ i, (i < 10000)%nat →
      get tatums (buildStaticIntervals (Fin b)) !! i =
      Some (tatumAt (durations (Fin b)) analysis i).
Proof. apply (buildIntervals_lookup 10000 (Fin b) tatums). Qed.

(** C8 (as amended).  For every finite base duration the tatum at index
    0 starts at 0, every later tatum starts where the previous one
    ends, and the durations alternate between [Math.round(base * 2/3)]
    at even indices and [Math.round(base * 1/3)] at odd ones. *)
Theorem tatums_cumulative (b : Qc) (i : nat) :
  (i < 10000)%nat →
  ∃ x, get tatums (buildStaticIntervals (Fin b)) !! i = Some x ∧
    duration x =
      (if Nat.even i then Math_round (Fin b * (of_Z 2 / of_Z 3))%js
       else Math_round (Fin b * (of_Z 1 / of_Z 3))%js) ∧
    match i with
    | O => start x = zero
    | S j => ∃ y, get tatums (buildStaticIntervals (Fin b)) !! j = Some y ∧
                  start x = (start y + duration y)%js
    end.
Proof.
  intros Hi. destruct (tatums_lookup b) as (analysis & Hnil & Hget).
  eexists. split; [by apply Hget|]. split; [apply tatumAt_duration|].
  destruct i as [|j].
  - by apply tatumAt_start_0.
  - eexists. split; [apply Hget; lia|].
    rewrite tatumAt_start_S by done.
    apply Math_round_add_integral;
      [by apply tatumAt_start_integral | apply tatumAt_duration_integral].
Qed.

Lemma tatums_cumulative_witness :
  (1 < 10000)%nat ∧
  ∃ x, get tatums (buildStaticIntervals (of_Z 2000)) !! 1%nat = Some x ∧
    duration x = Math_round (of_Z 2000 * (of_Z 1 / of_Z 3))%js ∧
    ∃ y, get tatums (buildStaticIntervals (of_Z 2000)) !! 0%nat = Some y ∧
         start x = (start y + duration y)%js.
Proof.
  split; [vm_compute; lia|].
  apply (tatums_cumulative (Qc_of_Z 2000) 1). vm_compute; lia.
Defined.

(** C8 as the specification states it does not hold: with base 2000
    the first tatum lasts 1333, which is not 2000 * 2/3. *)
Lemma tatum_duration_not_two_thirds :
  ∃ x, get tatums (buildStaticIntervals (of_Z 2000)) !! 0%nat = Some x ∧
       duration x = of_Z 1333 ∧
       duration x ≠ (of_Z 2000 * (of_Z 2 / of_Z 3))%js.
Proof.
  destruct (tatums_lookup (Qc_of_Z 2000)) as (analysis & Hnil & Hget).
  eexists. split; [apply Hget; vm_compute; lia|].
  rewrite tatumAt_duration. cbn [Nat.even].
  assert (Math_round (fst (d_tatums (durations (Fin (Qc_of_Z 2000))))) = of_Z 1333) as ->
    by (vm_compute; reflexivity).
  split; [done|]. intros H. vm_compute in H. discriminate H.
Qed.

(** ** determineInterval *)

Section DetermineInterval.

Implicit Types (analysis : list Interval) (progress : number).

Lemma ordered_lookup analysis i j x y :
  ordered analysis → (i < j)%nat →
  analysis !! i = Some x → analysis !! j = Some y →
  (start x <=? start y)%js = true.
Proof.
  intros Hord. revert i j x y.
  induction Hord as [|a l _ IH Hall]; intros i j x y Hij Hi Hj; [done|].
  destruct j as [|j]; [lia|]. destruct i as [|i].
  - simpl in Hi, Hj. simplify_eq.
    rewrite Forall_forall in Hall. apply Hall.
    apply list_elem_of_lookup. eauto.
  - simpl in Hi, Hj. apply (IH i j); [lia|done..].
Qed.

(** One iteration: the last index returns, an index where the test
    holds returns, any other index goes on.  Nothing throws. *)
Lemma determineLoop_step n i analysis progress :
  (S n + i = length analysis)%nat →
  determineLoop (S n) i analysis progress =
  if decide (n = 0%nat) then Normal (Some i)
  else if inside analysis progress i then Normal (Some i)
  else determineLoop n (S i) analysis progress.
Proof.
  intros Hlen. cbn [determineLoop].
  destruct (decide (n = 0%nat)) as [->|Hn].
  - rewrite decide_True by lia. done.
  - rewrite decide_False by lia. unfold inside.
    destruct (lookup_lt_is_Some_2 analysis i) as [cur ->]; [lia|].
    destruct (lookup_lt_is_Some_2 analysis (i + 1)) as [nxt ->]; [lia|].
    by destruct (start cur <? progress)%js, (progress <? start nxt)%js.
Qed.

(** The scan always returns an index of the sequence. *)
Lemma determineLoop_total n i analysis progress :
  (S n + i = length analysis)%nat →
  ∃ k, determineLoop (S n) i analysis progress = Normal (Some k) ∧
       (i ≤ k < length analysis)%nat.
Proof.
  revert i. induction n as [|n IH]; intros i Hlen.
  - rewrite determineLoop_step by done. rewrite decide_True by done.
    exists i. split; [done|lia].
  - rewrite determineLoop_step by done. rewrite decide_False by done.
    destruct (inside analysis progress i).
    + exists i. split; [done|lia].
    + destruct (IH (S i)) as (k & -> & Hk); [lia|]. exists k. split; [done|lia].
Qed.

Lemma determineInterval_total analysis progress :
  analysis ≠ [] →
  ∃ k, determineInterval analysis progress = Normal (Some k) ∧
       (k < length analysis)%nat.
Proof.
  intros Hne. unfold determineInterval.
  destruct analysis as [|x l]; [done|].
  destruct (determineLoop_total (length l) 0 (x :: l) progress) as (k & Hk & Hlt).
  - simpl. lia.
  - exists k. split; [done|lia].
Qed.

Lemma determineInterval_returns analysis progress :
  ∃ r, determineInterval analysis progress = Normal r.
Proof.
  destruct analysis as [|x l]; [by exists None|].
  destruct (determineInterval_total (x :: l) progress) as (k & -> & _); eauto.
Qed.

(** When the test holds nowhere from [i] on, the scan ends on the last
    index. *)
Lemma determineLoop_falls_through n i analysis progress :
  (S n + i = length analysis)%nat →
  (∀ j, (i ≤ j)%nat → inside analysis progress j = false) →
  determineLoop (S n) i analysis progress = Normal (Some (length analysis - 1)%nat).
Proof.
  revert i. induction n as [|n IH]; intros i Hlen Hout.
  - rewrite determineLoop_step by done. rewrite decide_True by done.
    do 2 f_equal. lia.
  - rewrite determineLoop_step by done. rewrite decide_False by done.
    rewrite Hout by lia. apply IH; [lia|]. intros j Hj. apply Hout. lia.
Qed.

Lemma determineInterval_falls_through analysis progress :
  analysis ≠ [] →
  (∀ j, inside analysis progress j = false) →
  determineInterval analysis progress = Normal (Some (length analysis - 1)%nat).
Proof.
  intros Hne Hout. unfold determineInterval.
  destruct analysis as [|x l]; [done|].
  apply (determineLoop_falls_through (length l) 0); [simpl; lia|auto].
Qed.

(** The first index at which the test holds is the one returned. *)
Lemma determineLoop_first n i k analysis progress :
  (S n + i = length analysis)%nat → (i ≤ k)%nat →
  (∀ j, (i ≤ j < k)%nat → inside analysis progress j = false) →
  inside analysis progress k = true →
  determineLoop (S n) i analysis progress = Normal (Some k).
Proof.
  revert i. induction n as [|n IH]; intros i Hlen Hik Hout Hin.
  - rewrite determineLoop_step by done. rewrite decide_True by done.
    unfold inside in Hin.
    destruct (analysis !! k) eqn:Hk; [|done].
    destruct (analysis !! (k + 1)%nat) eqn:Hk1; [|done].
    apply lookup_lt_Some in Hk1. lia.
  - rewrite determineLoop_step by done. rewrite decide_False by done.
    destruct (decide (i = k)) as [->|Hne]; [by rewrite Hin|].
    rewrite Hout by lia. apply IH; [lia..| |done].
    intros j Hj. apply Hout. lia.
Qed.

(** A progress value strictly between two consecutive starts of an
    ordered sequence resolves to the interval it lies in. *)
Lemma determineInterval_strictly_inside analysis progress i :
  ordered analysis → inside analysis progress i = true →
  determineInterval analysis progress = Normal (Some i).
Proof.
  intros Hord Hin. unfold determineInterval.
  assert (S i < length analysis)%nat as Hlen.
  { unfold inside in Hin. destruct (analysis !! i); [|done].
    destruct (analysis !! (i + 1)%nat) eqn:Hnxt; [|done].
    apply lookup_lt_Some in Hnxt. lia. }
  destruct analysis as [|x l]; [simpl in Hlen; lia|].
  apply (determineLoop_first (length l) 0 i); [simpl; lia|lia| |done].
  intros j Hj. unfold inside in Hin |- *.
  destruct ((x :: l) !! i) as [cur|] eqn:Hcur; [|done].
  destruct ((x :: l) !! (i + 1)%nat) as [nxt|] eqn:Hnxt; [|done].
  destruct ((x :: l) !! j) as [a|] eqn:Ha; [|done].
  destruct ((x :: l) !! (j + 1)%nat) as [b|] eqn:Hb; [|done].
  apply andb_prop in Hin as [Hlo _].
  apply andb_false_intro2.
  assert ((start b <=? start cur)%js = true) as Hle.
  { destruct (decide (j + 1 = i)%nat) as [<-|Hne].
    - simplify_eq. destruct (start cur); try done. simpl in *.
      apply bool_decide_eq_true, Qcle_refl.
    - apply (ordered_lookup (x :: l) (j + 1) i); [done|lia|done..]. }
  destruct (start b), (start cur), progress; simpl in *; try done.
  rewrite bool_decide_eq_true in Hle, Hlo. rewrite bool_decide_eq_false.
  apply Qcle_not_lt. eapply Qcle_trans; [done|]. by apply Qclt_le_weak.
Qed.

End DetermineInterval.

(** C2 (defect in the code).  A progress value equal to the start of an
    interval before the last should resolve to that interval.  Both
    comparisons in [determineInterval] are strict, so on an ordered
    sequence such a value passes the test at no index: the scan falls
    through to the last index, which is not the interval starting
    there. *)
Theorem determineInterval_on_boundary (analysis : list Interval) (i : nat) (x : Interval) :
  ordered analysis → analysis !! i = Some x → (S i < length analysis)%nat →
  determineInterval analysis (start x) = Normal (Some (length analysis - 1)%nat) ∧
  (length analysis - 1)%nat ≠ i.
Proof.
  intros Hord Hx Hlen. split; [|lia].
  apply determineInterval_falls_through; [by intros ->|].
  intros j. unfold inside.
  destruct (analysis !! j) as [cur|] eqn:Hcur; [|done].
  destruct (analysis !! (j + 1)%nat) as [nxt|] eqn:Hnxt; [|done].
  destruct (lt_eq_lt_dec j i) as [[Hlt| ->]|Hgt].
  - apply andb_false_intro2.
    destruct (decide (j + 1 = i)%nat) as [<-|Hne].
    + simplify_eq. apply ltb_irrefl.
    + apply leb_not_ltb. apply (ordered_lookup analysis (j + 1) i); [done|lia|done..].
  - simplify_eq. apply andb_false_intro1, ltb_irrefl.
  - apply andb_false_intro1, leb_not_ltb.
    by apply (ordered_lookup analysis i j).
Qed.

Lemma determineInterval_on_boundary_witness :
  (ordered sampleSequence ∧ sampleSequence !! 1%nat = Some (sampleInterval 10) ∧
   (2 < length sampleSequence)%nat) ∧
  determineInterval sampleSequence (of_Z 10) = Normal (Some 2%nat) ∧ 2%nat ≠ 1%nat.
Proof.
  split; [split; [evaluate | split; [reflexivity | simpl; lia]]|].
  apply (determineInterval_on_boundary sampleSequence 1 (sampleInterval 10));
    [evaluate | reflexivity | simpl; lia].
Defined.

(** C5.  On a non-empty ordered sequence, a progress value at or past
    the start of the last interval, however far past it, resolves to the
    last index; the scan reads no element outside the sequence. *)
Theorem determineInterval_past_last (analysis : list Interval) (progress : number)
    (x : Interval) :
  ordered analysis → last analysis = Some x → (start x <=? progress)%js = true →
  determineInterval analysis progress = Normal (Some (length analysis - 1)%nat).
Proof.
  intros Hord Hlast Hle. rewrite last_lookup in Hlast.
  apply determineInterval_falls_through; [by intros ->|].
  intros j. unfold inside.
  destruct (analysis !! j) as [cur|] eqn:Hcur; [|done].
  destruct (analysis !! (j + 1)%nat) as [nxt|] eqn:Hnxt; [|done].
  apply andb_false_intro2, leb_not_ltb.
  pose proof (lookup_lt_Some _ _ _ Hnxt) as Hlt.
  destruct (decide (j + 1 = pred (length analysis))%nat) as [Heq|Hne].
  - rewrite Heq in Hnxt. by simplify_eq.
  - apply leb_trans with (start x); [|done].
    apply (ordered_lookup analysis (j + 1) (pred (length analysis))); [done|lia|done..].
Qed.

Lemma determineInterval_past_last_witness :
  (ordered sampleSequence ∧ last sampleSequence = Some (sampleInterval 20) ∧
   (start (sampleInterval 20) <=? of_Z 1000)%js = true) ∧
  determineInterval sampleSequence (of_Z 1000) = Normal (Some 2%nat).
Proof.
  split; [split; [evaluate | split; reflexivity]|].
  apply (determineInterval_past_last sampleSequence (of_Z 1000) (sampleInterval 20));
    [evaluate | reflexivity | reflexivity].
Defined.

(** ** getVolume *)

Section GetVolume.

Implicit Types (x t : number) (a b q : Qc).

Ltac qc_to_q :=
  unfold Qcle, Qclt in *;
  cbn [this Qc_of_Z Qcplus Qcminus Qcmult Qcopp Q2Qc] in *;
  rewrite ?Qred_correct in *;
  change (inject_Z 1) with 1%Q in *; change (inject_Z 0) with 0%Q in *.

Ltac qc_lra := qc_to_q; lra.
Ltac qc_nra := qc_to_q; nra.
Ltac qc_order := first [ exfalso; qc_lra | f_equal; apply Qc_is_canon; qc_lra ].

(** [Math.max(Math.min(1, x), 0)] clamps to the interval from 0 to 1. *)
Lemma clamp_is_clamp01 x : Math_max (Math_min one x) zero = clamp01 x.
Proof.
  unfold clamp01, Math_max, Math_min, one, zero, of_Z.
  destruct x as [q| | |]; simpl; try done.
  repeat case_bool_decide; simpl; repeat case_bool_decide; try done; qc_order.
Qed.

Lemma clamp01_cases x :
  clamp01 x = NaN ∧ x = NaN ∨ ∃ q, clamp01 x = Fin q ∧ 0 ≤ q ≤ 1.
Proof.
  unfold clamp01, one, zero, of_Z.
  destruct x as [q| | |]; simpl; [|right..|by left].
  - right. repeat case_bool_decide.
    + exists (Qc_of_Z 0). split; [done|]. split; qc_lra.
    + exists (Qc_of_Z 1). split; [done|]. split; qc_lra.
    + exists q. split; [done|]. split; qc_lra.
  - exists (Qc_of_Z 1). split; [done|]. split; qc_lra.
  - exists (Qc_of_Z 0). split; [done|]. split; qc_lra.
Qed.

(** d3's [a * (1 - t) + b * t] is the linear interpolation. *)
Lemma interpolateNumber_lerp a b x :
  interpolateNumber (Fin a) (Fin b) (clamp01 x) = lerp (Fin a) (Fin b) (clamp01 x).
Proof.
  destruct (clamp01_cases x) as [[-> _]|(q & -> & _)]; [done|].
  unfold interpolateNumber, lerp, one, of_Z. simpl. f_equal.
  rewrite Z2Qc_inj_1. ring.
Qed.

Lemma elapsed_shift (s e t : Qc) :
  ((Fin s + Fin e) - (Fin s + Fin t))%js = (Fin e - Fin t)%js.
Proof. simpl. f_equal. ring. Qed.

Lemma lerp_between a b q :
  0 ≤ q ≤ 1 → ∃ v, lerp (Fin a) (Fin b) (Fin q) = Fin v ∧ between a b v.
Proof.
  intros [H0 H1]. eexists. split; [reflexivity|]. unfold between.
  destruct (Qclt_le_dec b a) as [Hba|Hab].
  - right. split; qc_nra.
  - left. split; qc_nra.
Qed.

(** A quotient of finite numbers is NaN only as 0 / 0. *)
Lemma div_NaN a b : (Fin a / Fin b)%js = NaN → a = 0 ∧ b = 0.
Proof.
  simpl. destruct (decide (b = 0)) as [->|]; [|done].
  destruct (decide (a = 0)) as [->|]; [done|].
  by destruct (bool_decide (0 < a)).
Qed.

Lemma lerp_clamp01_between a b x :
  x ≠ NaN → ∃ v, lerp (Fin a) (Fin b) (clamp01 x) = Fin v ∧ between a b v.
Proof.
  intros Hx. destruct (clamp01_cases x) as [[_ ?]|(q & -> & Hq)]; [done|].
  by apply lerp_between.
Qed.

(** C6.  When the active segment is the last element of the segments
    sequence, [getVolume] returns 0, whatever the elapsed time and the
    loudness properties of the interval are. *)
Theorem getVolume_last_segment (st : State) (interval : ActiveInterval) (i : nat) :
  index interval = Some i →
  S i = length (get segments (trackAnalysis st)) →
  getVolume st interval = zero.
Proof.
  intros Hi Hlast. unfold getVolume, successor. rewrite Hi. cbn [mbind option_bind].
  rewrite lookup_ge_None_2 by lia. done.
Qed.

Lemma getVolume_last_segment_witness :
  (index (spread sampleSequence (Some 2%nat)) = Some 2%nat ∧
   3%nat = length (get segments (trackAnalysis sampleState))) ∧
  getVolume sampleState (spread sampleSequence (Some 2%nat)) = zero.
Proof.
  split; [split; reflexivity|].
  apply (getVolume_last_segment sampleState (spread sampleSequence (Some 2%nat)) 2);
    reflexivity.
Defined.



End GetVolume.

(** ** Hooks *)

Section Hooks.

Implicit Types (st : State) (t type : IntervalType) (v : ActiveInterval).

Lemma foldl_run_watcher v ws st :
  let st' := foldl (run_watcher v) st ws in
  trackAnalysis st' = trackAnalysis st ∧
  activeIntervals st' = activeIntervals st ∧
  watchers st' = watchers st ∧
  hooks st' = hooks st ∧
  trackProgress st' = trackProgress st ∧
  volumeQueues st' = volumeQueues st ∧
  calls st' = calls st ++ flat_map (notified (hooks st) v) ws.
Proof.
  revert st. induction ws as [|w ws IH]; intros st; simpl.
  - by rewrite app_nil_r.
  - destruct (IH (run_watcher v st w)) as (-> & -> & -> & -> & -> & -> & ->).
    destruct w; simpl. by rewrite <- app_assoc.
Qed.

Lemma replace_spec type v st :
  let st' := replace type v st in
  trackAnalysis st' = trackAnalysis st ∧
  activeIntervals st' = set type v (activeIntervals st) ∧
  watchers st' = watchers st ∧
  hooks st' = hooks st ∧
  trackProgress st' = trackProgress st ∧
  volumeQueues st' = volumeQueues st ∧
  calls st' = calls st ++ flat_map (notified (hooks st) v) (get type (watchers st)).
Proof.
  unfold replace.
  by destruct (foldl_run_watcher v (get type (watchers st))
                 (with_activeIntervals (set type v (activeIntervals st)) st))
    as (-> & -> & -> & -> & -> & -> & ->).
Qed.

(** What one step of [setActiveIntervals] leaves behind. *)
Lemma activate_spec type i st :
  let st' := activate type i st in
  trackAnalysis st' = trackAnalysis st ∧
  watchers st' = watchers st ∧
  hooks st' = hooks st ∧
  trackProgress st' = trackProgress st ∧
  volumeQueues st' = volumeQueues st ∧
  index (get type (activeIntervals st')) = i ∧
  (∀ t, t ≠ type → get t (activeIntervals st') = get t (activeIntervals st)) ∧
  calls st' = calls st ++
    (if decide (i ≠ index (get type (activeIntervals st)))
     then flat_map (notified (hooks st) (spread (get type (trackAnalysis st)) i))
                   (get type (watchers st))
     else []).
Proof.
  unfold activate. case_decide as Hchanged.
  - destruct (replace_spec type (spread (get type (trackAnalysis st)) i) st)
      as (Han & Hact & Hw & Hh & Hp & Hq & Hc).
    cbn [trackAnalysis watchers hooks trackProgress volumeQueues calls
         activeIntervals with_activeIntervals].
    rewrite Hact, !get_set. repeat split; try done.
    intros t Hne. by rewrite !get_set_ne by congruence.
  - cbn [trackAnalysis watchers hooks trackProgress volumeQueues calls
         activeIntervals with_activeIntervals].
    rewrite get_set, app_nil_r. repeat split; try done.
    intros t Hne. by rewrite get_set_ne by congruence.
Qed.

Lemma setActiveInterval_normal st type :
  setActiveInterval st type = Normal (activate type (resolve st type) st).
Proof.
  unfold setActiveInterval, resolve.
  by destruct (determineInterval_returns (get type (trackAnalysis st)) (trackProgress st))
    as [r ->].
Qed.

Lemma resolve_activate type i st t :
  resolve (activate type i st) t = resolve st t.
Proof.
  unfold resolve.
  by destruct (activate_spec type i st) as (-> & _ & _ & -> & _).
Qed.

Lemma announced_activate type i st t :
  t ≠ type → announced (activate type i st) t = announced st t.
Proof.
  intros Hne. unfold announced. rewrite resolve_activate.
  destruct (activate_spec type i st) as (-> & -> & -> & _ & _ & _ & Hother & _).
  by rewrite Hother.
Qed.

(** [setActiveIntervals] returns; every type ends on the index found
    for it, and the handler calls made are those announced for the
    types in turn. *)
Lemma setActiveIntervals_spec st :
  ∃ st', setActiveIntervals st = Normal st' ∧
    trackAnalysis st' = trackAnalysis st ∧
    watchers st' = watchers st ∧
    hooks st' = hooks st ∧
    trackProgress st' = trackProgress st ∧
    volumeQueues st' = volumeQueues st ∧
    (∀ t, index (get t (activeIntervals st')) = resolve st t) ∧
    calls st' = calls st ++ flat_map (announced st) intervalTypes.
Proof.
  unfold setActiveIntervals, intervalTypes. cbn [foldl].
  change (mret st) with (Normal st).
  repeat (cbn [mbind Completion_bind]; rewrite setActiveInterval_normal).
  rewrite !resolve_activate.
  set (s1 := activate tatums (resolve st tatums) st).
  set (s2 := activate segments (resolve st segments) s1).
  set (s3 := activate beats (resolve st beats) s2).
  set (s4 := activate bars (resolve st bars) s3).
  set (s5 := activate sections (resolve st sections) s4).
  destruct (activate_spec tatums (resolve st tatums) st)
    as (A1 & W1 & H1 & P1 & Q1 & I1 & O1 & C1).
  destruct (activate_spec segments (resolve st segments) s1)
    as (A2 & W2 & H2 & P2 & Q2 & I2 & O2 & C2).
  destruct (activate_spec beats (resolve st beats) s2)
    as (A3 & W3 & H3 & P3 & Q3 & I3 & O3 & C3).
  destruct (activate_spec bars (resolve st bars) s3)
    as (A4 & W4 & H4 & P4 & Q4 & I4 & O4 & C4).
  destruct (activate_spec sections (resolve st sections) s4)
    as (A5 & W5 & H5 & P5 & Q5 & I5 & O5 & C5).
  fold s1 in A1, W1, H1, P1, Q1, I1, O1, C1.
  fold s2 in A2, W2, H2, P2, Q2, I2, O2, C2.
  fold s3 in A3, W3, H3, P3, Q3, I3, O3, C3.
  fold s4 in A4, W4, H4, P4, Q4, I4, O4, C4.
  fold s5 in A5, W5, H5, P5, Q5, I5, O5, C5.
  exists s5. split; [done|].
  split; [congruence|]. split; [congruence|]. split; [congruence|].
  split; [congruence|]. split; [congruence|]. split.
  - intros []; rewrite ?O5, ?O4, ?O3, ?O2 by done; done.
  - cbn [flat_map]. rewrite app_nil_r, !app_assoc.
    rewrite C5, C4, C3, C2, C1. unfold announced.
    rewrite A4, A3, A2, A1, W4, W3, W2, W1, H4, H3, H2, H1.
    rewrite !O4, !O3, !O2, !O1 by done. done.
Qed.

End Hooks.

(** ** Volume queues *)

Section VolumeQueues.

Implicit Types (st : State) (q : VolumeQueue.t) (o : VolumeQueues)
  (name : string) (v : number) (l : list number).

Lemma ltb_of_nat (a b : nat) : (of_nat a <? of_nat b)%js = bool_decide (a < b)%nat.
Proof.
  unfold of_nat, of_Z. simpl. apply bool_decide_ext.
  rewrite <- Z2Qc_inj_lt. lia.
Qed.

(** With a capacity that is a natural number the loop keeps the first
    [C] values. *)
Lemma evict_take n (C : nat) l :
  (length l ≤ n + C)%nat → evict n (of_nat C) l = Normal (take C l).
Proof.
  revert l. induction n as [|n IH]; intros l Hlen.
  - cbn [evict]. rewrite ltb_of_nat, bool_decide_eq_false_2 by lia.
    by rewrite take_ge by lia.
  - cbn [evict]. rewrite ltb_of_nat. case_bool_decide as Hover.
    + rewrite IH.
      * rewrite removelast_firstn_len. change firstn with (@take number).
        rewrite take_take. do 2 f_equal. lia.
      * rewrite removelast_firstn_len. change firstn with (@take number).
        rewrite length_take. lia.
    + by rewrite take_ge by lia.
Qed.

(** With a capacity that is not negative the loop ends. *)
Lemma evict_returns n (C : number) l :
  (C <? zero)%js = false → (length l ≤ n)%nat → returns (evict n C l) = true.
Proof.
  intros HC. revert l. induction n as [|n IH]; intros l Hlen.
  - destruct l; [|simpl in Hlen; lia]. cbn [evict length].
    change (of_nat 0) with zero. by rewrite HC.
  - cbn [evict]. destruct (C <? of_nat (length l))%js; [|done].
    apply IH. rewrite removelast_firstn_len. change firstn with (@take number).
    rewrite length_take. lia.
Qed.

Lemma processQueue_returns v q :
  (numeric (VolumeQueue.totalSamples q) <? zero)%js = false →
  returns (processQueue v q) = true.
Proof.
  intros HC. unfold processQueue.
  pose proof (evict_returns (length (v :: VolumeQueue.values q))
                (numeric (VolumeQueue.totalSamples q))
                (v :: VolumeQueue.values q) HC (le_n _)) as Hret.
  by destruct (evict _ _ _).
Qed.

Lemma processQueue_totalSamples v q q' :
  processQueue v q = Normal q' →
  VolumeQueue.totalSamples q' = VolumeQueue.totalSamples q.
Proof.
  unfold processQueue. destruct (evict _ _ _); [|done..].
  cbn. by intros [= <-].
Qed.

(** One pass over a queue of capacity [C]: the sample goes in front and
    the first [C] values stay. *)
Lemma processQueue_take v q (C : nat) :
  VolumeQueue.totalSamples q = Some (of_nat C) →
  ∃ q', processQueue v q = Normal q' ∧
        VolumeQueue.values q' = take C (v :: VolumeQueue.values q).
Proof.
  intros HC. unfold processQueue. rewrite HC. cbn [numeric default from_option id].
  rewrite evict_take by lia. cbn. eauto.
Qed.

Lemma processVolumeQueues_spec st :
  runnable (volumeQueues st) →
  ∃ st', processVolumeQueues st = Normal st' ∧
    trackAnalysis st' = trackAnalysis st ∧
    activeIntervals st' = activeIntervals st ∧
    watchers st' = watchers st ∧
    hooks st' = hooks st ∧
    calls st' = calls st ∧
    runnable (volumeQueues st') ∧
    ∀ name q, own (volumeQueues st) !! name = Some q →
      ∃ q', own (volumeQueues st') !! name = Some q' ∧
            processQueue (getVolume_default st) q = Normal q'.
Proof.
  intros [Hproto Hcap]. unfold processVolumeQueues.
  rewrite decide_True.
  2:{ intros name q Hq. apply Is_true_true, processQueue_returns. by apply (Hcap name). }
  unfold inherited_enumerable. rewrite Hproto.
  eexists. split; [reflexivity|].
  cbn [trackAnalysis activeIntervals watchers hooks calls volumeQueues
       with_volumeQueues own proto].
  repeat split; try done.
  - cbn [own]. intros name q'. rewrite lookup_omap. intros Hq'.
    destruct (own (volumeQueues st) !! name) as [q|] eqn:Hq; [|done].
    simpl in Hq'. destruct (processQueue (getVolume_default st) q) as [q1| |] eqn:Hrun;
      simplify_eq.
    rewrite (processQueue_totalSamples _ _ _ Hrun). by apply (Hcap name).
  - intros name q Hq. rewrite lookup_omap, Hq. simpl.
    pose proof (processQueue_returns (getVolume_default st) q (Hcap name q Hq)) as Hret.
    destruct (processQueue (getVolume_default st) q) as [q1| |]; [|done..]. eauto.
Qed.

(** One frame, on queues that can be gone through. *)
Lemma tick_spec now st :
  runnable (volumeQueues st) →
  let st0 := with_trackProgress (now - initialStart st + initialTrackProgress st)%js st in
  ∃ st1 st', setActiveIntervals st0 = Normal st1 ∧
    tick now st = Normal st' ∧
    trackAnalysis st' = trackAnalysis st ∧
    watchers st' = watchers st ∧
    hooks st' = hooks st ∧
    runnable (volumeQueues st') ∧
    (∀ t, index (get t (activeIntervals st')) = resolve st0 t) ∧
    calls st' = calls st ++ flat_map (announced st0) intervalTypes ∧
    ∀ name q, own (volumeQueues st) !! name = Some q →
      ∃ q', own (volumeQueues st') !! name = Some q' ∧
            processQueue (getVolume_default st1) q = Normal q'.
Proof.
  intros Hrun st0. unfold tick. fold st0.
  destruct (setActiveIntervals_spec st0) as (st1 & -> & A1 & W1 & H1 & P1 & Q1 & I1 & C1).
  cbn [mbind Completion_bind].
  destruct (processVolumeQueues_spec st1) as (st' & -> & A2 & Act2 & W2 & H2 & C2 & R2 & Q2).
  { by rewrite Q1. }
  assert (trackAnalysis st0 = trackAnalysis st) as A0 by done.
  assert (watchers st0 = watchers st) as W0 by done.
  assert (hooks st0 = hooks st) as H0 by done.
  assert (calls st0 = calls st) as C0 by done.
  exists st1, st'. repeat split; try congruence; try apply R2.
  intros name q Hq. apply Q2. by rewrite Q1.
Qed.

(** Any number of frames: the queue registered under [name] with
    capacity [C] holds the first [C] of the samples taken, newest
    first, followed by what it held before. *)
Lemma ticks_queue nows st name q (C : nat) :
  runnable (volumeQueues st) →
  own (volumeQueues st) !! name = Some q →
  VolumeQueue.totalSamples q = Some (of_nat C) →
  ∃ st' q' samples, ticks nows st = Normal st' ∧
    own (volumeQueues st') !! name = Some q' ∧
    VolumeQueue.totalSamples q' = Some (of_nat C) ∧
    length samples = length nows ∧
    VolumeQueue.values q' =
      match nows with
      | [] => VolumeQueue.values q
      | _ => take C (samples ++ VolumeQueue.values q)
      end.
Proof.
  revert st q. induction nows as [|now rest IH]; intros st q Hrun Hq HC.
  - exists st, q, []. by repeat split.
  - cbn [ticks].
    destruct (tick_spec now st Hrun) as (st1 & st2 & _ & -> & _ & _ & _ & Hrun2 & _ & _ & Hq2).
    cbn [mbind Completion_bind].
    destruct (Hq2 name q Hq) as (q2 & Hq2' & Hrun_q).
    destruct (processQueue_take (getVolume_default st1) q C HC) as (q2' & Hrun_q' & Hvals).
    rewrite Hrun_q in Hrun_q'. injection Hrun_q' as <-.
    assert (VolumeQueue.totalSamples q2 = Some (of_nat C)) as HC2
      by (by rewrite (processQueue_totalSamples _ _ _ Hrun_q)).
    destruct (IH st2 q2 Hrun2 Hq2' HC2) as (st' & q' & samples & -> & Hq' & HC' & Hlen & Hv).
    exists st', q', (samples ++ [getVolume_default st1]).
    repeat split; try done.
    + rewrite length_app. simpl. lia.
    + rewrite Hv, Hvals. destruct rest as [|now' rest].
      * destruct samples; [done|simpl in Hlen; lia].
      * rewrite <- app_assoc. cbn [app].
        rewrite !take_app, take_take. do 3 f_equal. lia.
Qed.

End VolumeQueues.

(** C9.  A queue registered with capacity [C] takes the sample of each
    pass in front and keeps the first [C] values: after one pass of
    [processVolumeQueues], and after any positive number of frames, it
    holds the [C] newest of the samples taken followed by what it held
    before, so never more than [C] values, and the oldest values, the
    bootstrap samples among them, are the first to go. *)
Theorem volume_queue_fifo (st : State) (name : string) (q : VolumeQueue.t)
    (C : nat) (nows : list number) :
  runnable (volumeQueues st) →
  own (volumeQueues st) !! name = Some q →
  VolumeQueue.totalSamples q = Some (of_nat C) →
  nows ≠ [] →
  (∃ st1 q1, processVolumeQueues st = Normal st1 ∧
     own (volumeQueues st1) !! name = Some q1 ∧
     VolumeQueue.values q1 = take C (getVolume_default st :: VolumeQueue.values q)) ∧
  (∃ st' q' samples, ticks nows st = Normal st' ∧
     own (volumeQueues st') !! name = Some q' ∧
     length samples = length nows ∧
     VolumeQueue.values q' = take C (samples ++ VolumeQueue.values q) ∧
     (length (VolumeQueue.values q') ≤ C)%nat).
Proof.
  intros Hrun Hq HC Hnows. split.
  - destruct (processVolumeQueues_spec st Hrun) as (st1 & Hst1 & _ & _ & _ & _ & _ & _ & Hq1).
    destruct (Hq1 name q Hq) as (q1 & Hlook & Hpass).
    destruct (processQueue_take (getVolume_default st) q C HC) as (q1' & Hpass' & Hvals).
    rewrite Hpass in Hpass'. injection Hpass' as <-. eauto.
  - destruct (ticks_queue nows st name q C Hrun Hq HC)
      as (st' & q' & samples & Hticks & Hq' & _ & Hlen & Hvals).
    destruct nows as [|now rest]; [done|].
    exists st', q', samples. repeat split; try done.
    rewrite Hvals, length_take. lia.
Qed.

Lemma volume_queue_fifo_witness :
  (runnable (volumeQueues sampleQueued) ∧
   own (volumeQueues sampleQueued) !! "bass" =
     Some (bootstrap (Some (of_nat 3)) (Some (of_Z 2)) None) ∧
   [of_Z 1; of_Z 2; of_Z 12; of_Z 13] ≠ []) ∧
  ∃ st' q' samples, ticks [of_Z 1; of_Z 2; of_Z 12; of_Z 13] sampleQueued = Normal st' ∧
    own (volumeQueues st') !! "bass" = Some q' ∧
    length samples = 4%nat ∧
    VolumeQueue.values q' = take 3 (samples ++ [zero; one]) ∧
    (length (VolumeQueue.values q') ≤ 3)%nat.
Proof.
  split; [split; [evaluate | split; [reflexivity | discriminate]]|].
  apply (volume_queue_fifo sampleQueued "bass"
           (bootstrap (Some (of_nat 3)) (Some (of_Z 2)) None) 3
           [of_Z 1; of_Z 2; of_Z 12; of_Z 13]);
    [evaluate | reflexivity | reflexivity | discriminate].
Defined.

(** C10.  Registering a name that is already registered replaces its
    queue by the fresh one: values 0 and 1, volume and average 0.5,
    min 0, max 1, and the capacity, smoothing and mode just given; the
    samples and statistics gathered under that name are gone. *)
Theorem registerQueue_overwrites (st : State) (name : string)
    (totalSamples smoothing : option number) (mode : option string) :
  is_Some (queue_at name (volumeQueues st)) →
  queue_at name (volumeQueues (registerQueue name totalSamples smoothing mode st)) =
  Some {| VolumeQueue.totalSamples := totalSamples;
          VolumeQueue.smoothing := smoothing;
          VolumeQueue.values := [zero; one];
          VolumeQueue.volume := half;
          VolumeQueue.average := half;
          VolumeQueue.min := Some zero;
          VolumeQueue.max := Some one;
          VolumeQueue.mode := default "average" mode |}.
Proof.
  intros _. unfold registerQueue, assign, queue_at.
  cbn [volumeQueues with_volumeQueues].
  destruct (decide (name = "__proto__")); cbn [own proto]; [done|].
  apply lookup_insert_eq.
Qed.

(** After the four frames the sample queue holds the three newest
    samples and no bootstrap sample. *)
Lemma sampleTicked_bass :
  VolumeQueue.values <$> queue_at "bass" (volumeQueues sampleTicked) =
  Some [of_Z (-27); of_Z (-28); of_Z (-28)].
Proof. evaluate. Qed.

Lemma registerQueue_overwrites_witness :
  is_Some (queue_at "bass" (volumeQueues sampleTicked)) ∧
  queue_at "bass"
    (volumeQueues (registerQueue "bass" (Some (of_nat 5)) None (Some "max") sampleTicked)) =
  Some (bootstrap (Some (of_nat 5)) None (Some "max")).
Proof.
  assert (is_Some (queue_at "bass" (volumeQueues sampleTicked))) as Hreg.
  { apply (fmap_is_Some VolumeQueue.values). rewrite sampleTicked_bass. by eexists. }
  split; [exact Hreg|].
  exact (registerQueue_overwrites sampleTicked "bass" (Some (of_nat 5)) None (Some "max") Hreg).
Defined.

(** ** getVolumeQueue *)

(** C4 as the specification states it does not hold: on a new Looper
    no queue is registered under bass, and asking for it throws. *)
Lemma getVolumeQueue_unregistered_throws :
  own (volumeQueues (new_Looper None)) !! "bass" = None ∧
  getVolumeQueue "bass" (new_Looper None) = Throw TypeError ∧
  getVolumeQueue "bass" (new_Looper None) ≠ Normal None.
Proof. repeat split; done. Qed.

(** A name every object inherits answers [undefined]. *)
Lemma getVolumeQueue_inherited (st : State) (name : string) :
  queue_at name (volumeQueues st) = None → name ∈ object_prototype_keys →
  getVolumeQueue name st = Normal None.
Proof.
  intros Hq Hin. unfold getVolumeQueue. rewrite Hq. by rewrite decide_True.
Qed.

(** C4 (as amended).  For a name that has not been registered,
    [getVolumeQueue] throws a TypeError: it reads [volume] of
    [undefined].  The names excepted are those every object inherits
    from [Object.prototype] and, once a queue has been installed as
    prototype through the name [__proto__], the names of that queue's
    properties. *)
Theorem getVolumeQueue_unregistered (st : State) (name : string) :
  own (volumeQueues st) !! name = None →
  name ∉ object_prototype_keys →
  proto (volumeQueues st) = None ∨ (name ∉ VolumeQueue.keys) →
  getVolumeQueue name st = Throw TypeError.
Proof.
  intros Hown Hobj Hproto. unfold getVolumeQueue, queue_at.
  assert (name ≠ "__proto__") as Hname.
  { intros ->. apply Hobj. evaluate. }
  rewrite decide_False by done. rewrite Hown. rewrite decide_False by done.
  destruct (proto (volumeQueues st)) as [q|]; [|done].
  destruct Hproto as [|Hkeys]; [done|].
  rewrite !decide_False; [done|done|..];
    intros ->; apply Hkeys; evaluate.
Qed.

Lemma getVolumeQueue_unregistered_witness :
  (own (volumeQueues sampleQueued) !! "treble" = None ∧
   ("treble" ∉ object_prototype_keys) ∧
   (proto (volumeQueues sampleQueued) = None ∨ ("treble" ∉ VolumeQueue.keys))) ∧
  getVolumeQueue "treble" sampleQueued = Throw TypeError.
Proof.
  assert ("treble" ∉ object_prototype_keys) as Hobj by evaluate.
  split; [split; [reflexivity | split; [exact Hobj | left; reflexivity]]|].
  apply (getVolumeQueue_unregistered sampleQueued "treble");
    [reflexivity | exact Hobj | left; reflexivity].
Defined.

(** ** on and subscribeHooks *)

Section Dispatch.

Implicit Types (st : State) (t : IntervalType) (g : HookName) (m : Callback)
  (analysis : TimingMap).

Lemma looperWith_runnable analysis : runnable (volumeQueues (looperWith analysis)).
Proof. split; [done|]. apply map_Forall_empty. Qed.

Lemma on_segment_hooks g m st :
  h_segment (hooks (on g m st)) =
  h_segment (hooks st) ++ (if decide (g = segment) then [m] else []).
Proof. destruct g; simpl; by rewrite ?app_nil_r. Qed.

(** The first frame of a Looper built over any timing map without an
    empty sequence, after one call of [on]. *)
Lemma looperWith_dispatch analysis g m now :
  (∀ t, get t analysis ≠ []) →
  let st := on g m (looperWith analysis) in
  ∃ st', tick now st = Normal st' ∧
    (∀ t, index (get t (activeIntervals st')) ≠ index (get t (activeIntervals st))) ∧
    calls st' =
      if decide (g = segment)
      then map (λ t, (m, spread (get t (trackAnalysis st))
                           (index (get t (activeIntervals st'))))) intervalTypes
      else [].
Proof.
  intros Hne st.
  destruct (tick_spec now st (looperWith_runnable analysis))
    as (st1 & st' & _ & Htick & _ & _ & _ & _ & Hidx & Hcalls & _).
  set (st0 := with_trackProgress (now - initialStart st + initialTrackProgress st)%js st)
    in Hidx, Hcalls.
  exists st'. split; [done|].
  assert (∀ t, ∃ k, resolve st0 t = Some k) as Hres.
  { intros t. unfold resolve.
    destruct (determineInterval_total (get t (trackAnalysis st0)) (trackProgress st0))
      as (k & -> & _); [apply Hne|eauto]. }
  assert (∀ t, index (get t (activeIntervals st0)) = None) as Hnone
    by (by intros []).
  assert (∀ t, announced st0 t =
               map (λ c, (c, spread (get t (trackAnalysis st)) (resolve st0 t)))
                   (if decide (g = segment) then [m] else [])) as Hann.
  { intros t. unfold announced. rewrite Hnone.
    destruct (Hres t) as [k ->]. rewrite decide_True by done.
    assert (get t (watchers st0) = [ForEachHook segment]) as -> by (by destruct t).
    cbn [flat_map notified hooks_at]. rewrite app_nil_r.
    change (hooks st0) with (hooks (on g m (looperWith analysis))).
    by rewrite on_segment_hooks. }
  split.
  - intros t. rewrite Hidx. change (activeIntervals st) with (activeIntervals st0).
    rewrite Hnone. by destruct (Hres t) as [k ->].
  - rewrite Hcalls. change (calls st) with (@nil (Callback * ActiveInterval)).
    unfold intervalTypes. cbn [flat_map app map]. rewrite !Hann, !Hidx.
    by destruct (decide (g = segment)).
Qed.

Lemma interval_count_positive : (0 < 10000)%nat.
Proof. apply Nat.ltb_lt. vm_compute. reflexivity. Qed.

Lemma buildStaticIntervals_nonempty base t : get t (buildStaticIntervals base) ≠ [].
Proof.
  unfold buildStaticIntervals. intros Hnil.
  pose proof (buildIntervals_length 10000 base t) as Hlen.
  rewrite Hnil in Hlen. pose proof interval_count_positive.
  simpl length in Hlen. lia.
Qed.

(** C3 (defect in the code).  A handler registered with [on(g, ...)]
    should be called when, and only when, the active interval of
    granularity [g] changes.  [subscribeHooks] makes the watcher of
    every interval type call [this.hooks.segment]: on the first frame of
    a new Looper the active interval of every type changes, and a
    handler registered for [segment] is called five times, once with
    the new interval of each type, while a handler registered for any
    other granularity is not called at all. *)
Theorem on_dispatch (base : option number) (g : HookName) (m : Callback) (now : number) :
  let st := on g m (new_Looper base) in
  ∃ st', tick now st = Normal st' ∧
    (∀ t, index (get t (activeIntervals st')) ≠ index (get t (activeIntervals st))) ∧
    calls st' =
      if decide (g = segment)
      then map (λ t, (m, spread (get t (trackAnalysis st))
                           (index (get t (activeIntervals st'))))) intervalTypes
      else [].
Proof.
  unfold new_Looper.
  apply (looperWith_dispatch (buildStaticIntervals (default (of_Z 2000) base)) g m now).
  apply buildStaticIntervals_nonempty.
Qed.

End Dispatch.

(** * Further properties *)

(** Order facts on [Qc] by way of [Q]. *)
Ltac qc_arith :=
  unfold Qcle, Qclt in *;
  cbn [this Qc_of_Z Qcplus Qcminus Qcmult Qcopp Qcdiv Qcinv Q2Qc] in *;
  rewrite ?Qred_correct in *;
  lra.

(** ** The synthesised timing map, continued *)

Section StaticMap.

Implicit Types (base : number) (type : IntervalType) (i : nat).

Lemma interval_count_Z : Z.of_nat 10000 = 10000%Z.
Proof. vm_compute. reflexivity. Qed.

Lemma static_length base type :
  length (get type (buildStaticIntervals base)) = 10000%nat.
Proof. unfold buildStaticIntervals. apply buildIntervals_length. Qed.

(** X1.  Whatever the base duration, [buildStaticIntervals] returns
    exactly 10000 intervals for each of the five types. *)
Theorem buildStaticIntervals_length base type :
  length (get type (buildStaticIntervals base)) = 10000%nat.
Proof. apply static_length. Qed.

Lemma static_lookup base type :
  ∃ analysis, get type analysis = [] ∧
    ∀ i, (i < 10000)%nat →
      get type (buildStaticIntervals base) !! i =
      Some (staticInterval (durations base)
              (staticLoop i 0 (durations base) type analysis) type i).
Proof. unfold buildStaticIntervals. apply buildIntervals_lookup. Qed.

Lemma of_nat_ramp i :
  (of_nat i / of_Z 10000)%js = Fin (Qc_of_Z (Z.of_nat i) / Qc_of_Z 10000).
Proof.
  unfold of_nat, of_Z, div.
  rewrite decide_False; [done|]. rewrite <- Z2Qc_inj_0. by intros ?%Z2Qc_inj.
Qed.



(** X3.  In the synthesised map [loudness_max_time] is half the
    duration for segments, beats, bars and sections, but NaN for every
    tatum: there [duration[type]] is the two-element array, which is
    not a number. *)
Theorem buildStaticIntervals_loudness_max_time base type i :
  (i < 10000)%nat →
  ∃ x, get type (buildStaticIntervals base) !! i = Some x ∧
    loudness_max_time x =
      if decide (type = tatums) then NaN else (half * duration x)%js.
Proof.
  intros Hi. destruct (static_lookup base type) as (analysis & _ & Hget).
  eexists. split; [by apply Hget|].
  cbn [loudness_max_time duration staticInterval].
  destruct type; try done.
Qed.

Lemma buildStaticIntervals_loudness_max_time_witness :
  (3 < 10000)%nat ∧
  ∃ x, get tatums (buildStaticIntervals (of_Z 2000)) !! 3%nat = Some x ∧
    loudness_max_time x = NaN.
Proof.
  split; [vm_compute; lia|].
  apply (buildStaticIntervals_loudness_max_time (of_Z 2000) tatums 3). vm_compute; lia.
Defined.

Lemma tatumStart_S long short i :
  tatumStart long short (S i) =
  (tatumStart long short i + (if Nat.even i then long else short))%Z.
Proof.
  unfold tatumStart.
  destruct (Nat.Even_or_Odd i) as [[k ->]|[k ->]].
  - replace (S (2 * k)) with (1 + k * 2)%nat by lia.
    rewrite Nat.div_add, Nat.Div0.mod_add by done.
    replace (2 * k)%nat with (0 + k * 2)%nat by lia.
    rewrite Nat.div_add, Nat.Div0.mod_add by done.
    replace (0 + k * 2)%nat with (2 * k)%nat by lia.
    rewrite Nat.even_mul. simpl. lia.
  - replace (S (2 * k + 1)) with (0 + (k + 1) * 2)%nat by lia.
    rewrite Nat.div_add, Nat.Div0.mod_add by done.
    replace (2 * k + 1)%nat with (1 + k * 2)%nat by lia.
    rewrite Nat.div_add, Nat.Div0.mod_add by done.
    replace (1 + k * 2)%nat with (S (2 * k)) by lia.
    rewrite Nat.even_succ, Nat.odd_mul. simpl. lia.
Qed.

(** The two tatum durations of a finite base, as integers. *)
Lemma tatum_durations_Z (b : Qc) :
  ∃ long short,
    Math_round (fst (d_tatums (durations (Fin b)))) = of_Z long ∧
    Math_round (snd (d_tatums (durations (Fin b)))) = of_Z short.
Proof.
  destruct (tatum_durations_finite b) as (l & s & -> & ->).
  by eexists _, _.
Qed.

Lemma tatumAt_start_closed (b : Qc) analysis long short i :
  get tatums analysis = [] →
  Math_round (fst (d_tatums (durations (Fin b)))) = of_Z long →
  Math_round (snd (d_tatums (durations (Fin b)))) = of_Z short →
  start (tatumAt (durations (Fin b)) analysis i) = of_Z (tatumStart long short i).
Proof.
  intros Hnil Hlong Hshort. induction i as [|i IH].
  - by rewrite tatumAt_start_0.
  - rewrite tatumAt_start_S, IH, tatumAt_duration, tatumStart_S by done.
    destruct (Nat.even i); rewrite ?Hlong, ?Hshort, of_Z_add, Math_round_of_Z; done.
Qed.



Lemma tatumStart_mono long short i j :
  (0 ≤ long)%Z → (0 ≤ short)%Z → (i ≤ j)%nat →
  (tatumStart long short i ≤ tatumStart long short j)%Z.
Proof.
  intros Hl Hs Hij. induction Hij as [|j _ IH]; [done|].
  rewrite tatumStart_S. destruct (Nat.even j); lia.
Qed.

Lemma Math_round_nonneg (q : Qc) :
  0 ≤ q → ∃ z, Math_round (Fin q) = of_Z z ∧ (0 ≤ z)%Z.
Proof.
  intros Hq. eexists. split; [reflexivity|].
  change 0%Z with (Qfloor 0). apply Qfloor_resp_le. qc_arith.
Qed.

Lemma tatum_durations_nonneg (b : Qc) :
  0 ≤ b →
  ∃ long short,
    Math_round (fst (d_tatums (durations (Fin b)))) = of_Z long ∧
    Math_round (snd (d_tatums (durations (Fin b)))) = of_Z short ∧
    (0 ≤ long)%Z ∧ (0 ≤ short)%Z.
Proof.
  intros Hb. unfold durations, div, of_Z. cbn [d_tatums fst snd].
  rewrite decide_False by (rewrite <- Z2Qc_inj_0; by intros ?%Z2Qc_inj).
  cbn [mul].
  destruct (Math_round_nonneg (b * (Qc_of_Z 2 / Qc_of_Z 3))) as (long & Hlong & ?).
  { unfold Qcle in *. cbn [this Qc_of_Z Qcmult Qcdiv Qcinv Q2Qc] in *.
    rewrite ?Qred_correct in *. unfold inject_Z.
    change (/ (3 # 1))%Q with (1 # 3)%Q. lra. }
  destruct (Math_round_nonneg (b * (Qc_of_Z 1 / Qc_of_Z 3))) as (short & Hshort & ?).
  { unfold Qcle in *. cbn [this Qc_of_Z Qcmult Qcdiv Qcinv Q2Qc] in *.
    rewrite ?Qred_correct in *. unfold inject_Z.
    change (/ (3 # 1))%Q with (1 # 3)%Q. lra. }
  by exists long, short.
Qed.

Lemma StronglySorted_lookup_2 {A} (R : A → A → Prop) (l : list A) :
  (∀ i j x y, (i < j)%nat → l !! i = Some x → l !! j = Some y → R x y) →
  StronglySorted R l.
Proof.
  induction l as [|a l IH]; intros Hl; constructor.
  - apply IH. intros i j x y Hij Hi Hj. by apply (Hl (S i) (S j)); [lia|..].
  - apply Forall_lookup. intros j y Hj. by apply (Hl 0%nat (S j)); [lia|..].
Qed.

Lemma static_tatums_ordered (b : Qc) :
  0 ≤ b → ordered (get tatums (buildStaticIntervals (Fin b))).
Proof.
  intros Hb.
  destruct (tatum_durations_nonneg b Hb) as (long & short & Hlong & Hshort & Hl & Hs).
  destruct (tatums_lookup b) as (analysis & Hnil & Hget).
  apply StronglySorted_lookup_2. intros i j x y Hij Hi Hj.
  pose proof (lookup_lt_Some _ _ _ Hj) as Hlen.
  rewrite static_length in Hlen.
  rewrite Hget in Hi by lia. rewrite Hget in Hj by lia. simplify_eq.
  rewrite !(tatumAt_start_closed b analysis long short) by done.
  unfold of_Z. simpl. apply bool_decide_eq_true. rewrite <- Z2Qc_inj_le.
  apply tatumStart_mono; [done..|lia].
Qed.

(** X5.  For a base duration that is finite and not negative the
    synthesised tatum sequence is ordered by [start]. *)
Theorem tatums_ordered (b : Qc) :
  0 ≤ b → ordered (get tatums (buildStaticIntervals (Fin b))).
Proof. apply static_tatums_ordered. Qed.

Lemma tatums_ordered_witness :
  0 ≤ Qc_of_Z 2000 ∧ ordered (get tatums (buildStaticIntervals (of_Z 2000))).
Proof.
  assert (0 ≤ Qc_of_Z 2000) as Hb by evaluate.
  split; [exact Hb|]. exact (tatums_ordered (Qc_of_Z 2000) Hb).
Defined.

End StaticMap.

(** ** determineInterval, continued *)

Section Resolver.

Implicit Types (analysis : list Interval) (progress : number).

(** X6.  [determineInterval] never throws.  On an empty sequence it
    returns [undefined]; on any other, whatever the starts and the
    progress are (NaN and the infinities included), it returns an index
    of the sequence. *)
Theorem determineInterval_safe analysis progress :
  ∃ r, determineInterval analysis progress = Normal r ∧
    match r with
    | None => analysis = []
    | Some k => (k < length analysis)%nat
    end.
Proof.
  destruct analysis as [|x l]; [by exists None|].
  destruct (determineInterval_total (x :: l) progress) as (k & Hk & Hlt); [done|].
  by exists (Some k).
Qed.

(** X7.  On a sequence ordered by [start], a progress strictly between
    the start of an interval and the start of the next resolves to that
    interval. *)
Theorem determineInterval_between_starts analysis progress i x y :
  ordered analysis →
  analysis !! i = Some x → analysis !! (i + 1)%nat = Some y →
  (start x <? progress)%js = true → (progress <? start y)%js = true →
  determineInterval analysis progress = Normal (Some i).
Proof.
  intros Hord Hx Hy Hlo Hhi. apply determineInterval_strictly_inside; [done|].
  unfold inside. by rewrite Hx, Hy, Hlo, Hhi.
Qed.

Lemma determineInterval_between_starts_witness :
  (ordered sampleSequence ∧
   sampleSequence !! 1%nat = Some (sampleInterval 10) ∧
   sampleSequence !! 2%nat = Some (sampleInterval 20) ∧
   (start (sampleInterval 10) <? of_Z 13)%js = true ∧
   (of_Z 13 <? start (sampleInterval 20))%js = true) ∧
  determineInterval sampleSequence (of_Z 13) = Normal (Some 1%nat).
Proof.
  split; [split; [evaluate | repeat split; reflexivity]|].
  apply (determineInterval_between_starts sampleSequence (of_Z 13) 1
           (sampleInterval 10) (sampleInterval 20));
    [evaluate | reflexivity..].
Defined.

(** X8.  On a sequence ordered by [start], a progress at or before the
    start of the first interval matches no interval, and the scan ends
    on the last index, not on the first. *)
Theorem determineInterval_before_first analysis progress x :
  ordered analysis → analysis !! 0%nat = Some x →
  (progress <=? start x)%js = true →
  determineInterval analysis progress = Normal (Some (length analysis - 1)%nat).
Proof.
  intros Hord Hx Hle.
  apply determineInterval_falls_through; [by intros ->|].
  intros j. unfold inside.
  destruct (analysis !! j) as [cur|] eqn:Hcur; [|done].
  destruct (analysis !! (j + 1)%nat) as [nxt|]; [|done].
  apply andb_false_intro1, leb_not_ltb.
  destruct j as [|j]; [by simplify_eq|].
  apply leb_trans with (start x); [done|].
  apply (ordered_lookup analysis 0 (S j)); [done|lia|done..].
Qed.

Lemma determineInterval_before_first_witness :
  (ordered sampleSequence ∧ sampleSequence !! 0%nat = Some (sampleInterval 0) ∧
   (of_Z 0 <=? start (sampleInterval 0))%js = true) ∧
  determineInterval sampleSequence (of_Z 0) = Normal (Some 2%nat).
Proof.
  split; [split; [evaluate | split; reflexivity]|].
  apply (determineInterval_before_first sampleSequence (of_Z 0) (sampleInterval 0));
    [evaluate | reflexivity | reflexivity].
Defined.

(** When every start after the first is NaN no test can hold. *)
Lemma determineInterval_NaN_starts analysis progress :
  analysis ≠ [] →
  (∀ j x, (1 ≤ j)%nat → analysis !! j = Some x → start x = NaN) →
  determineInterval analysis progress = Normal (Some (length analysis - 1)%nat).
Proof.
  intros Hne Hnan. apply determineInterval_falls_through; [done|].
  intros j. unfold inside.
  destruct (analysis !! j) as [cur|] eqn:Hcur; [|done].
  destruct (analysis !! (j + 1)%nat) as [nxt|] eqn:Hnxt; [|done].
  destruct j as [|j].
  - apply andb_false_intro2. rewrite (Hnan 1%nat nxt) by done.
    by destruct progress.
  - apply andb_false_intro1. by rewrite (Hnan (S j) cur) by (done || lia).
Qed.

(** X9.  A progress that is NaN resolves to the last index of any
    non-empty sequence. *)
Theorem determineInterval_NaN_progress analysis :
  analysis ≠ [] →
  determineInterval analysis NaN = Normal (Some (length analysis - 1)%nat).
Proof.
  intros Hne. apply determineInterval_falls_through; [done|].
  intros j. unfold inside.
  destruct (analysis !! j) as [cur|]; [|done].
  destruct (analysis !! (j + 1)%nat) as [nxt|]; [|done].
  apply andb_false_intro1. by destruct (start cur).
Qed.

Lemma determineInterval_NaN_progress_witness :
  sampleSequence ≠ [] ∧ determineInterval sampleSequence NaN = Normal (Some 2%nat).
Proof.
  split; [discriminate|].
  apply (determineInterval_NaN_progress sampleSequence). discriminate.
Defined.

Lemma static_starts_NaN base type :
  type ≠ tatums →
  ∀ j x, (1 ≤ j)%nat → get type (buildStaticIntervals base) !! j = Some x →
         start x = NaN.
Proof.
  intros Hne j x Hj Hx.
  pose proof (lookup_lt_Some _ _ _ Hx) as Hlen.
  rewrite static_length in Hlen.
  destruct (static_lookup base type) as (analysis & Hnil & Hget).
  rewrite Hget in Hx by done. injection Hx as <-.
  apply staticInterval_start_NaN; [done|].
  intros Hempty. apply (f_equal length) in Hempty.
  rewrite staticLoop_length, Hnil in Hempty. simpl in Hempty. lia.
Qed.

Lemma last_static_index : (10000 - 1)%nat = 9999%nat.
Proof. vm_compute. reflexivity. Qed.

Lemma static_resolves_to_last base type progress :
  type ≠ tatums →
  determineInterval (get type (buildStaticIntervals base)) progress =
  Normal (Some 9999%nat).
Proof.
  intros Hne. rewrite <- last_static_index.
  rewrite <- (static_length base type).
  apply determineInterval_NaN_starts.
  - apply buildStaticIntervals_nonempty.
  - by apply static_starts_NaN.
Qed.

(** X10.  On the synthesised map the sequences of segments, beats,
    bars and sections resolve to their last index, 9999, for every
    base duration and every progress: every start but the first is
    NaN, so no interval ever matches. *)
Theorem buildStaticIntervals_resolves_to_last base type progress :
  type ≠ tatums →
  determineInterval (get type (buildStaticIntervals base)) progress =
  Normal (Some 9999%nat).
Proof. apply static_resolves_to_last. Qed.

Lemma buildStaticIntervals_resolves_to_last_witness :
  beats ≠ tatums ∧
  determineInterval (get beats (buildStaticIntervals (of_Z 2000))) (of_Z 3000) =
  Normal (Some 9999%nat).
Proof.
  split; [discriminate|].
  apply (buildStaticIntervals_resolves_to_last (of_Z 2000) beats (of_Z 3000)).
  discriminate.
Defined.

(** X22.  On the synthesised map the tatums, unlike the other types,
    resolve as intended: for a base duration that is finite and not
    negative, a progress strictly between the starts of tatum [i] and
    tatum [i + 1] resolves to [i]. *)
Theorem buildStaticIntervals_resolves_tatums (b : Qc) (i : nat) (progress : number) :
  0 ≤ b → (i + 1 < 10000)%nat →
  ∃ x y,
    get tatums (buildStaticIntervals (Fin b)) !! i = Some x ∧
    get tatums (buildStaticIntervals (Fin b)) !! (i + 1)%nat = Some y ∧
    ((start x <? progress)%js = true → (progress <? start y)%js = true →
     determineInterval (get tatums (buildStaticIntervals (Fin b))) progress =
     Normal (Some i)).
Proof.
  intros Hb Hi.
  destruct (lookup_lt_is_Some_2 (get tatums (buildStaticIntervals (Fin b))) i)
    as [x Hx]; [rewrite static_length; lia|].
  destruct (lookup_lt_is_Some_2 (get tatums (buildStaticIntervals (Fin b))) (i + 1))
    as [y Hy]; [rewrite static_length; lia|].
  exists x, y. split; [done|]. split; [done|]. intros Hlo Hhi.
  apply determineInterval_strictly_inside; [by apply static_tatums_ordered|].
  unfold inside. by rewrite Hx, Hy, Hlo, Hhi.
Qed.

Lemma buildStaticIntervals_resolves_tatums_witness :
  (0 ≤ Qc_of_Z 2000 ∧ (2 + 1 < 10000)%nat) ∧
  ∃ x y,
    get tatums (buildStaticIntervals (of_Z 2000)) !! 2%nat = Some x ∧
    get tatums (buildStaticIntervals (of_Z 2000)) !! 3%nat = Some y ∧
    ((start x <? of_Z 2500)%js = true → (of_Z 2500 <? start y)%js = true →
     determineInterval (get tatums (buildStaticIntervals (of_Z 2000))) (of_Z 2500) =
     Normal (Some 2%nat)).
Proof.
  assert (0 ≤ Qc_of_Z 2000) as Hb by evaluate.
  assert (2 + 1 < 10000)%nat as Hi by (vm_compute; lia).
  split; [split; [exact Hb | exact Hi]|].
  exact (buildStaticIntervals_resolves_tatums (Qc_of_Z 2000) 2 (of_Z 2500) Hb Hi).
Defined.

End Resolver.

(** ** setActiveIntervals, continued *)

Section ActiveIntervals.

Implicit Types (st : State) (t type : IntervalType).

Lemma set_get {A} t (o : PerType A) : set t (get t o) o = o.
Proof. by destruct t, o. Qed.

Lemma PerType_eq {A} (o1 o2 : PerType A) : (∀ t, get t o1 = get t o2) → o1 = o2.
Proof.
  intros H. destruct o1, o2.
  pose proof (H tatums). pose proof (H segments). pose proof (H beats).
  pose proof (H bars). pose proof (H sections). simpl in *. by subst.
Qed.

Lemma with_activeIntervals_id st : with_activeIntervals (activeIntervals st) st = st.
Proof. by destruct st. Qed.

(** The object one step leaves under its own type. *)
Lemma activate_active type st :
  get type (activeIntervals (activate type (resolve st type) st)) = settled st type.
Proof.
  unfold activate, settled. case_decide as Hchanged.
  - destruct (replace_spec type
                (spread (get type (trackAnalysis st)) (resolve st type)) st)
      as (_ & Hact & _ & _ & Hp & _).
    cbn [activeIntervals with_activeIntervals].
    by rewrite Hact, !get_set, Hp.
  - cbn [activeIntervals with_activeIntervals]. by rewrite get_set.
Qed.

Lemma settled_activate type i st t :
  t ≠ type → settled (activate type i st) t = settled st t.
Proof.
  intros Hne. unfold settled. rewrite resolve_activate.
  destruct (activate_spec type i st) as (-> & _ & _ & -> & _ & _ & Hother & _).
  by rewrite Hother.
Qed.

Lemma setActiveIntervals_settled st :
  ∃ st', setActiveIntervals st = Normal st' ∧
    ∀ t, get t (activeIntervals st') = settled st t.
Proof.
  unfold setActiveIntervals, intervalTypes. cbn [foldl].
  change (mret st) with (Normal st).
  repeat (cbn [mbind Completion_bind]; rewrite setActiveInterval_normal).
  set (s1 := activate tatums (resolve st tatums) st).
  set (s2 := activate segments (resolve s1 segments) s1).
  set (s3 := activate beats (resolve s2 beats) s2).
  set (s4 := activate bars (resolve s3 bars) s3).
  set (s5 := activate sections (resolve s4 sections) s4).
  exists s5. split; [done|].
  pose proof (activate_spec segments (resolve s1 segments) s1) as (_&_&_&_&_&_& O2 &_).
  pose proof (activate_spec beats (resolve s2 beats) s2) as (_&_&_&_&_&_& O3 &_).
  pose proof (activate_spec bars (resolve s3 bars) s3) as (_&_&_&_&_&_& O4 &_).
  pose proof (activate_spec sections (resolve s4 sections) s4) as (_&_&_&_&_&_& O5 &_).
  fold s2 in O2. fold s3 in O3. fold s4 in O4. fold s5 in O5.
  intros [].
  - rewrite O5, O4, O3, O2 by done. apply activate_active.
  - rewrite O5, O4, O3 by done. unfold s2. rewrite activate_active.
    by apply settled_activate.
  - rewrite O5, O4 by done. unfold s3. rewrite activate_active.
    unfold s2, s1. by rewrite !settled_activate.
  - rewrite O5 by done. unfold s4. rewrite activate_active.
    unfold s3, s2, s1. by rewrite !settled_activate.
  - unfold s5. rewrite activate_active.
    unfold s4, s3, s2, s1. by rewrite !settled_activate.
Qed.

(** X11.  After [setActiveIntervals] every active interval has the
    index found for its type, [elapsed] equal to the track progress
    minus its [start] and [progress] equal to [elapsed] over its
    [duration]; and if every active interval carried the properties of
    the timing-map element at its index before, it does so after. *)
Theorem setActiveIntervals_postcondition st :
  linked st →
  ∃ st', setActiveIntervals st = Normal st' ∧ linked st' ∧
    ∀ t, let a := get t (activeIntervals st') in
      index a = resolve st t ∧
      elapsed a = Some (trackProgress st - prop start a)%js ∧
      progress a = Some ((trackProgress st - prop start a) / prop duration a)%js.
Proof.
  intros Hlinked.
  destruct (setActiveIntervals_spec st) as (st' & Hrun & Han & _ & _ & _ & _ & Hidx & _).
  destruct (setActiveIntervals_settled st) as (st'' & Hrun' & Hset).
  rewrite Hrun in Hrun'. injection Hrun' as <-.
  exists st'. split; [done|]. split.
  - intros t. rewrite Han, Hset. unfold settled. cbn [descriptor index].
    case_decide; [done|]. apply Hlinked.
  - intros t. cbn zeta. split; [apply Hidx|].
    rewrite Hset. unfold settled, prop. cbn [descriptor elapsed progress]. done.
Qed.

Lemma setActiveIntervals_postcondition_witness :
  linked sampleState ∧
  ∃ st', setActiveIntervals sampleState = Normal st' ∧ linked st' ∧
    ∀ t, let a := get t (activeIntervals st') in
      index a = resolve sampleState t ∧
      elapsed a = Some (trackProgress sampleState - prop start a)%js ∧
      progress a =
        Some ((trackProgress sampleState - prop start a) / prop duration a)%js.
Proof.
  assert (linked sampleState) as Hlinked by (intros []; reflexivity).
  split; [exact Hlinked|]. exact (setActiveIntervals_postcondition sampleState Hlinked).
Defined.

(** A state whose active interval of [type] is already the one found
    is left as it is by the step for [type]. *)
Lemma activate_fixed type st :
  let a := get type (activeIntervals st) in
  index a = resolve st type →
  elapsed a = Some (trackProgress st - prop start a)%js →
  progress a = Some ((trackProgress st - prop start a) / prop duration a)%js →
  activate type (resolve st type) st = st.
Proof.
  intros a Hi He Hp. unfold activate. fold a.
  rewrite decide_False by (intros Hne; by apply Hne).
  fold a. rewrite <- He, <- Hp.
  replace (mkActive (descriptor a) (index a) (elapsed a) (progress a)) with a
    by (by destruct a).
  unfold a. by rewrite set_get, with_activeIntervals_id.
Qed.

(** X12.  [setActiveIntervals] is idempotent: run again on the state
    it returns, with the progress unchanged, it returns that state, so
    no active interval is replaced and no handler is called a second
    time. *)
Theorem setActiveIntervals_idempotent st :
  ∃ st1, setActiveIntervals st = Normal st1 ∧ setActiveIntervals st1 = Normal st1.
Proof.
  destruct (setActiveIntervals_spec st) as (st1 & Hrun & Han & _ & _ & Hp & _ & Hidx & _).
  destruct (setActiveIntervals_settled st) as (st1' & Hrun' & Hset).
  rewrite Hrun in Hrun'. injection Hrun' as <-.
  exists st1. split; [done|].
  assert (∀ t, resolve st1 t = resolve st t) as Hres
    by (intros t; unfold resolve; by rewrite Han, Hp).
  assert (∀ t, activate t (resolve st1 t) st1 = st1) as Hfix.
  { intros t. apply activate_fixed; cbn zeta.
    - by rewrite Hidx, Hres.
    - rewrite Hset, Hp. unfold settled, prop. by cbn [elapsed descriptor].
    - rewrite Hset, Hp. unfold settled, prop. by cbn [progress descriptor]. }
  unfold setActiveIntervals, intervalTypes. cbn [foldl].
  change (mret st1) with (Normal st1).
  repeat (cbn [mbind Completion_bind]; rewrite setActiveInterval_normal, Hfix).
  done.
Qed.

(** X13.  With the watchers of [subscribeHooks] in place,
    [setActiveIntervals] calls handlers as follows: going through the
    types in order, for each type whose index changes it calls every
    handler registered under [segment], in registration order, with the
    fresh active interval of that type ([elapsed] and [progress] not
    yet written); for a type whose index stays it calls nothing. *)
Theorem setActiveIntervals_notifies st :
  subscribed st →
  ∃ st', setActiveIntervals st = Normal st' ∧
    calls st' = calls st ++
      flat_map (λ t,
        if decide (resolve st t ≠ index (get t (activeIntervals st)))
        then map (λ c, (c, spread (get t (trackAnalysis st)) (resolve st t)))
                 (h_segment (hooks st))
        else []) intervalTypes.
Proof.
  intros Hsub.
  destruct (setActiveIntervals_spec st) as (st' & Hrun & _ & _ & _ & _ & _ & _ & Hcalls).
  exists st'. split; [done|]. rewrite Hcalls. f_equal.
  unfold intervalTypes, announced. cbn [flat_map].
  red in Hsub. rewrite Hsub, !get_all. cbn [flat_map notified hooks_at].
  by rewrite !app_nil_r.
Qed.

Lemma setActiveIntervals_notifies_witness :
  subscribed (on segment 7%nat sampleState) ∧
  ∃ st', setActiveIntervals (on segment 7%nat sampleState) = Normal st' ∧
    map fst (calls st') = [7; 7; 7; 7; 7]%nat.
Proof.
  assert (subscribed (on segment 7%nat sampleState)) as Hsub by reflexivity.
  split; [exact Hsub|].
  destruct (setActiveIntervals_notifies (on segment 7%nat sampleState) Hsub)
    as (st' & Hrun & Hcalls).
  exists st'. split; [exact Hrun|]. rewrite Hcalls. reflexivity.
Defined.

End ActiveIntervals.

(** ** Sequences of calls *)

Section Calls.

Implicit Types (st : State) (c : Call) (cs : list Call) (q : VolumeQueue.t)
  (name : string).

(** [processVolumeQueues] and [resetVolumeQueues] write nothing but
    the queues. *)
Lemma processVolumeQueues_frame st st' :
  processVolumeQueues st = Normal st' →
  st' = with_volumeQueues (volumeQueues st') st ∧
  proto (volumeQueues st') = proto (volumeQueues st) ∧
  ∀ name q', own (volumeQueues st') !! name = Some q' →
    ∃ q, own (volumeQueues st) !! name = Some q ∧
         processQueue (getVolume_default st) q = Normal q'.
Proof.
  unfold processVolumeQueues. case_decide; [|done].
  destruct (inherited_enumerable _); [|done].
  intros [= <-]. repeat split.
  intros name q'. cbn [volumeQueues with_volumeQueues own]. rewrite lookup_omap.
  destruct (own (volumeQueues st) !! name) as [q|]; [|done]. simpl.
  destruct (processQueue (getVolume_default st) q) eqn:Hq; [|done..].
  intros [= <-]. eauto.
Qed.

Lemma resetVolumeQueues_frame st st' :
  resetVolumeQueues st = Normal st' →
  st' = with_volumeQueues (volumeQueues st') st ∧
  proto (volumeQueues st') = proto (volumeQueues st) ∧
  own (volumeQueues st') = resetQueue <$> own (volumeQueues st).
Proof.
  unfold resetVolumeQueues. destruct (filter _ _); [|done]. by intros [= <-].
Qed.

Lemma tick_frame now st st' :
  tick now st = Normal st' →
  let st0 := with_trackProgress (now - initialStart st + initialTrackProgress st)%js st in
  ∃ st1, setActiveIntervals st0 = Normal st1 ∧
    processVolumeQueues st1 = Normal st' ∧
    trackAnalysis st' = trackAnalysis st ∧
    watchers st' = watchers st ∧
    hooks st' = hooks st ∧
    volumeQueues st1 = volumeQueues st ∧
    (∀ t, index (get t (activeIntervals st1)) = resolve st0 t) ∧
    calls st' = calls st ++ flat_map (announced st0) intervalTypes.
Proof.
  intros Htick st0. unfold tick in Htick. fold st0 in Htick.
  destruct (setActiveIntervals_spec st0) as (st1 & Hrun & A1 & W1 & H1 & P1 & Q1 & I1 & C1).
  rewrite Hrun in Htick. cbn [mbind Completion_bind] in Htick.
  destruct (processVolumeQueues_frame st1 st' Htick) as (Hst' & _ & _).
  exists st1. split; [done|]. split; [done|].
  rewrite Hst'. cbn [trackAnalysis watchers hooks calls with_volumeQueues].
  by repeat split.
Qed.

Lemma run_preserves (P : State → Prop) :
  (∀ c st st', P st → call c st = Normal st' → P st') →
  ∀ cs st st', P st → run cs st = Normal st' → P st'.
Proof.
  intros Hstep cs. induction cs as [|c cs IH]; intros st st' HP Hrun.
  - by injection Hrun as <-.
  - cbn [run] in Hrun. destruct (call c st) as [st1| |] eqn:Hc; [|done..].
    cbn [mbind Completion_bind] in Hrun. eapply IH; [|done]. by eapply Hstep.
Qed.

(** The handlers called so far were all registered under [segment]. *)
Lemma segment_only_step c st st' :
  subscribed st ∧ (∀ m v, (m, v) ∈ calls st → m ∈ h_segment (hooks st)) →
  call c st = Normal st' →
  subscribed st' ∧ (∀ m v, (m, v) ∈ calls st' → m ∈ h_segment (hooks st')).
Proof.
  intros [Hsub Hcalls] Hc. destruct c as [g m0|name ts sm mode|now|]; cbn [call] in Hc.
  - injection Hc as <-. split; [done|]. intros m v Hm.
    rewrite on_segment_hooks. apply elem_of_app. left. by apply (Hcalls m v).
  - injection Hc as <-. by split.
  - destruct (tick_frame now st st' Hc) as (st1 & _ & _ & _ & W & H & _ & _ & C).
    split; [red; by rewrite W|]. intros m v. rewrite C, H, elem_of_app.
    intros [Hold|Hnew]; [by apply (Hcalls m v)|].
    apply list_elem_of_In, in_flat_map in Hnew as (t & _ & Hin).
    unfold announced in Hin. case_decide; [|done].
    red in Hsub. change (get t (watchers _)) with (get t (watchers st)) in Hin.
    rewrite Hsub, get_all in Hin. cbn [flat_map notified hooks_at] in Hin.
    rewrite app_nil_r in Hin. apply in_map_iff in Hin as (m' & [= <- _] & Hm').
    by apply list_elem_of_In.
  - destruct (resetVolumeQueues_frame st st' Hc) as (-> & _). by split.
Qed.

(** X14.  Whatever sequence of [on], [registerQueue], [tick] and
    [resetVolumeQueues] calls a new Looper goes through, every handler
    call it has made was to a handler registered under [segment]: a
    handler registered only under [tatum], [beat], [bar] or [section]
    is never called. *)
Theorem run_calls_segment_handlers_only (base : option number) cs :
  match run cs (new_Looper base) with
  | Normal st' => ∀ m v, (m, v) ∈ calls st' → m ∈ h_segment (hooks st')
  | _ => True
  end.
Proof.
  destruct (run cs (new_Looper base)) as [st'| |] eqn:Hrun; [|done..].
  eapply (run_preserves _ segment_only_step cs (new_Looper base) st'); [|done].
  split; [done|]. intros m v Hm. by apply elem_of_nil in Hm.
Qed.

End Calls.

(** ** Volume queues, continued *)

Section Queues.

Implicit Types (st : State) (q : VolumeQueue.t) (name : string)
  (l : list number) (v : number).

Lemma removelast_take l : removelast l = take (length l - 1) l.
Proof. rewrite removelast_firstn_len. f_equal. lia. Qed.

(** Eviction only removes values. *)
Lemma evict_Forall (P : number → Prop) n C l l' :
  Forall P l → evict n C l = Normal l' → Forall P l'.
Proof.
  revert l. induction n as [|n IH]; intros l Hl; cbn [evict];
    destruct (C <? of_nat (length l))%js; try done.
  - by intros [= <-].
  - apply IH. rewrite removelast_take. by apply Forall_take.
  - by intros [= <-].
Qed.

Lemma processQueue_values v q q' :
  processQueue v q = Normal q' →
  ∃ n, evict n (numeric (VolumeQueue.totalSamples q)) (v :: VolumeQueue.values q) =
       Normal (VolumeQueue.values q').
Proof.
  unfold processQueue. destruct (evict _ _ _) as [l| |] eqn:He; [|done..].
  cbn. intros [= <-]. eauto.
Qed.

(** A pass keeps the configuration of a queue. *)
Lemma processQueue_config v q q' :
  processQueue v q = Normal q' →
  VolumeQueue.totalSamples q' = VolumeQueue.totalSamples q ∧
  VolumeQueue.smoothing q' = VolumeQueue.smoothing q ∧
  VolumeQueue.mode q' = VolumeQueue.mode q.
Proof.
  unfold processQueue. destruct (evict _ _ _); [|done..].
  cbn. by intros [= <-].
Qed.

Lemma getVolume_no_successor st (interval : ActiveInterval) :
  successor st interval = None → getVolume st interval = zero.
Proof. intros H. unfold getVolume. by rewrite H. Qed.

(** On the synthesised map the sample of a frame is 0: the active
    segment is the last one. *)
Lemma static_sample_zero base st st1 :
  trackAnalysis st = buildStaticIntervals base →
  setActiveIntervals st = Normal st1 →
  getVolume_default st1 = zero.
Proof.
  intros Han Hrun.
  destruct (setActiveIntervals_spec st) as (st1' & Hrun' & Han1 & _ & _ & _ & _ & Hidx & _).
  rewrite Hrun in Hrun'. injection Hrun' as <-.
  apply getVolume_no_successor. unfold successor.
  rewrite Hidx. unfold resolve. rewrite Han, Han1, Han.
  rewrite static_resolves_to_last by done. cbn [mbind option_bind].
  apply lookup_ge_None_2. rewrite static_length.
  apply Nat.leb_le. vm_compute. reflexivity.
Qed.

Lemma default_values_step base (c : Call) st st' :
  trackAnalysis st = buildStaticIntervals base ∧
  (∀ name q, own (volumeQueues st) !! name = Some q →
     Forall (λ v, v = zero ∨ v = one) (VolumeQueue.values q)) →
  call c st = Normal st' →
  trackAnalysis st' = buildStaticIntervals base ∧
  (∀ name q, own (volumeQueues st') !! name = Some q →
     Forall (λ v, v = zero ∨ v = one) (VolumeQueue.values q)).
Proof.
  intros [Han Hvals] Hc. destruct c as [g m0|name0 ts sm mode|now|]; cbn [call] in Hc.
  - injection Hc as <-. by split.
  - injection Hc as <-. split; [done|]. intros name q.
    unfold registerQueue, assign. cbn [volumeQueues with_volumeQueues].
    case_decide; cbn [own]; [apply Hvals|].
    rewrite lookup_insert. case_decide; [|apply Hvals].
    intros [= <-]. cbn.
    constructor; [by left|]. constructor; [by right|]. constructor.
  - destruct (tick_frame now st st' Hc) as (st1 & Hset & Hproc & A & _ & _ & Q & _).
    split; [by rewrite A|]. intros name q' Hq'.
    destruct (processVolumeQueues_frame st1 st' Hproc) as (_ & _ & Hown).
    destruct (Hown name q' Hq') as (q & Hq & Hpass).
    rewrite (static_sample_zero base
               (with_trackProgress (now - initialStart st + initialTrackProgress st)%js st)
               st1 Han Hset) in Hpass.
    destruct (processQueue_values _ _ _ Hpass) as (n & Hev).
    eapply evict_Forall; [|done]. constructor; [by left|].
    apply (Hvals name). by rewrite <- Q.
  - destruct (resetVolumeQueues_frame st st' Hc) as (Hst' & _ & Hown).
    split; [by rewrite Hst'|]. intros name q.
    rewrite Hown, lookup_fmap.
    destruct (own (volumeQueues st) !! name); [|done].
    intros [= <-]. cbn.
    constructor; [by left|]. constructor; [by right|]. constructor.
Qed.

Lemma new_Looper_trackAnalysis (base : option number) :
  trackAnalysis (new_Looper base) = buildStaticIntervals (default (of_Z 2000) base).
Proof. unfold new_Looper, looperWith. done. Qed.

(** X15.  On a Looper left with its synthesised timing map the volume
    signal is dead: the active segment is always the last one, every
    sample taken is 0, and whatever sequence of calls the Looper goes
    through, the values of every registered queue are 0 or the
    bootstrap value 1. *)
Theorem default_Looper_samples_zero (base : option number) (cs : list Call) :
  match run cs (new_Looper base) with
  | Normal st' =>
      ∀ name q, own (volumeQueues st') !! name = Some q →
        Forall (λ v, v = zero ∨ v = one) (VolumeQueue.values q)
  | _ => True
  end.
Proof.
  destruct (run cs (new_Looper base)) as [st'| |] eqn:Hrun; [|done..].
  eapply (run_preserves _ (default_values_step (default (of_Z 2000) base))
            cs (new_Looper base) st'); [|done].
  split; [apply new_Looper_trackAnalysis|]. intros name q Hq.
  change (own (volumeQueues (new_Looper base)))
    with (∅ : gmap string VolumeQueue.t) in Hq.
  by rewrite lookup_empty in Hq.
Qed.

(** X16.  A queue can be read as soon as it is registered:
    [getVolumeQueue] on the name just given to [registerQueue] returns
    0.5, whatever the name, the configuration and the state were. *)
Theorem getVolumeQueue_registerQueue st name (totalSamples smoothing : option number)
    (mode : option string) :
  getVolumeQueue name (registerQueue name totalSamples smoothing mode st) =
  Normal (Some half).
Proof.
  unfold getVolumeQueue, registerQueue, assign, queue_at.
  cbn [volumeQueues with_volumeQueues].
  destruct (decide (name = "__proto__")); cbn [own proto]; [done|].
  by rewrite lookup_insert_eq.
Qed.

(** X17.  [registerQueue] touches no other queue: under any other
    name the queue found is the one that was there. *)
Theorem registerQueue_other st name name' (totalSamples smoothing : option number)
    (mode : option string) :
  name ≠ name' →
  queue_at name' (volumeQueues (registerQueue name totalSamples smoothing mode st)) =
  queue_at name' (volumeQueues st).
Proof.
  intros Hne. unfold registerQueue, assign, queue_at.
  cbn [volumeQueues with_volumeQueues].
  destruct (decide (name = "__proto__")) as [->|]; cbn [own proto].
  - by rewrite !decide_False by congruence.
  - destruct (decide (name' = "__proto__")); [done|]. by rewrite lookup_insert_ne.
Qed.

Lemma registerQueue_other_witness :
  "treble" ≠ "bass" ∧
  queue_at "bass"
    (volumeQueues (registerQueue "treble" (Some (of_nat 9)) None None sampleTicked)) =
  queue_at "bass" (volumeQueues sampleTicked).
Proof.
  split; [discriminate|].
  apply (registerQueue_other sampleTicked "treble" "bass"). discriminate.
Defined.

(** Frames keep the configuration of every queue. *)
Lemma ticks_config nows st name q :
  runnable (volumeQueues st) →
  own (volumeQueues st) !! name = Some q →
  ∃ st' q', ticks nows st = Normal st' ∧
    runnable (volumeQueues st') ∧
    own (volumeQueues st') !! name = Some q' ∧
    VolumeQueue.totalSamples q' = VolumeQueue.totalSamples q ∧
    VolumeQueue.smoothing q' = VolumeQueue.smoothing q ∧
    VolumeQueue.mode q' = VolumeQueue.mode q.
Proof.
  revert st q. induction nows as [|now rest IH]; intros st q Hrun Hq.
  - by exists st, q.
  - cbn [ticks].
    destruct (tick_spec now st Hrun) as (st1 & st2 & _ & -> & _ & _ & _ & Hrun2 & _ & _ & Hq2).
    cbn [mbind Completion_bind].
    destruct (Hq2 name q Hq) as (q2 & Hq2' & Hpass).
    destruct (processQueue_config _ _ _ Hpass) as (C1 & C2 & C3).
    destruct (IH st2 q2 Hrun2 Hq2') as (st' & q' & -> & Hrun' & Hq' & D1 & D2 & D3).
    exists st', q'. split; [done|]. split; [done|]. split; [done|].
    repeat split; congruence.
Qed.

(** X18.  Registering a queue, letting any number of frames pass and
    calling [resetVolumeQueues] gives back the queue as it was
    registered: the values 0 and 1, volume and average 0.5, min 0,
    max 1, with the capacity, smoothing and mode it was given. *)
Theorem register_ticks_reset st name (totalSamples smoothing : option number)
    (mode : option string) (nows : list number) :
  name ≠ "__proto__" →
  runnable (volumeQueues (registerQueue name totalSamples smoothing mode st)) →
  ∃ st2 st3,
    ticks nows (registerQueue name totalSamples smoothing mode st) = Normal st2 ∧
    resetVolumeQueues st2 = Normal st3 ∧
    own (volumeQueues st3) !! name = Some (bootstrap totalSamples smoothing mode).
Proof.
  intros Hname Hrun.
  set (st1 := registerQueue name totalSamples smoothing mode st) in *.
  assert (own (volumeQueues st1) !! name = Some (bootstrap totalSamples smoothing mode))
    as Hq.
  { unfold st1, registerQueue, assign. cbn [volumeQueues with_volumeQueues].
    rewrite decide_False by done. cbn [own]. apply lookup_insert_eq. }
  destruct (ticks_config nows st1 name _ Hrun Hq)
    as (st2 & q2 & Hticks & [Hproto _] & Hq2 & C1 & C2 & C3).
  exists st2. eexists. split; [done|].
  unfold resetVolumeQueues, inherited_enumerable. rewrite Hproto.
  split; [reflexivity|]. cbn [volumeQueues with_volumeQueues own].
  rewrite lookup_fmap, Hq2. cbn. unfold resetQueue. by rewrite C1, C2, C3.
Qed.

Lemma register_ticks_reset_witness :
  ("bass" ≠ "__proto__" ∧
   runnable (volumeQueues (registerQueue "bass" (Some (of_nat 3)) (Some (of_Z 2)) None
                             sampleState))) ∧
  ∃ st2 st3,
    ticks [of_Z 1; of_Z 12]
      (registerQueue "bass" (Some (of_nat 3)) (Some (of_Z 2)) None sampleState) =
    Normal st2 ∧
    resetVolumeQueues st2 = Normal st3 ∧
    own (volumeQueues st3) !! "bass" =
    Some (bootstrap (Some (of_nat 3)) (Some (of_Z 2)) None).
Proof.
  split; [split; [discriminate | evaluate]|].
  apply (register_ticks_reset sampleState "bass" (Some (of_nat 3)) (Some (of_Z 2)) None
           [of_Z 1; of_Z 12]); [discriminate | evaluate].
Defined.

Lemma evict_negative n (c : Qc) l : c < 0 → evict n (Fin c) l = Diverge.
Proof.
  intros Hc.
  assert (∀ k : nat, (Fin c <? of_nat k)%js = true) as Hlt.
  { intros k. unfold of_nat, of_Z. cbn [ltb]. apply bool_decide_eq_true.
    eapply Qclt_le_trans; [done|]. rewrite <- Z2Qc_inj_0, <- Z2Qc_inj_le. lia. }
  revert l. induction n as [|n IH]; intros l; cbn [evict]; rewrite Hlt; [done|apply IH].
Qed.

(** X19.  A queue registered with a negative capacity stops the
    Looper: in the next frame the eviction loop empties the queue and
    then goes on for ever, so [tick] does not return. *)
Theorem tick_negative_capacity st name q (c : Qc) (now : number) :
  own (volumeQueues st) !! name = Some q →
  VolumeQueue.totalSamples q = Some (Fin c) → c < 0 →
  tick now st = Diverge.
Proof.
  intros Hq HC Hc. unfold tick.
  destruct (setActiveIntervals_spec
              (with_trackProgress (now - initialStart st + initialTrackProgress st)%js st))
    as (st1 & -> & _ & _ & _ & _ & Q1 & _).
  cbn [mbind Completion_bind]. unfold processVolumeQueues.
  rewrite decide_False; [done|]. intros Hall.
  change (volumeQueues (with_trackProgress _ st)) with (volumeQueues st) in Q1.
  rewrite Q1 in Hall. specialize (Hall name q Hq). cbn beta in Hall.
  unfold processQueue in Hall. rewrite HC in Hall. cbn [numeric default from_option id] in Hall.
  by rewrite evict_negative in Hall.
Qed.

Lemma tick_negative_capacity_witness :
  (own (volumeQueues (registerQueue "bass" (Some (of_Z (-1))) None None sampleState))
     !! "bass" = Some (bootstrap (Some (of_Z (-1))) None None) ∧
   VolumeQueue.totalSamples (bootstrap (Some (of_Z (-1))) None None) =
     Some (Fin (Qc_of_Z (-1))) ∧
   Qc_of_Z (-1) < 0) ∧
  tick (of_Z 5) (registerQueue "bass" (Some (of_Z (-1))) None None sampleState) = Diverge.
Proof.
  assert (Qc_of_Z (-1) < 0) as Hneg by evaluate.
  split; [split; [reflexivity | split; [reflexivity | exact Hneg]]|].
  apply (tick_negative_capacity
           (registerQueue "bass" (Some (of_Z (-1))) None None sampleState) "bass"
           (bootstrap (Some (of_Z (-1))) None None) (Qc_of_Z (-1)) (of_Z 5));
    [reflexivity | reflexivity | exact Hneg].
Defined.

Lemma evict_NaN n l : evict n NaN l = Normal l.
Proof. by destruct n. Qed.

(** X20.  A queue registered without a capacity ([totalSamples]
    undefined) is never trimmed: every pass of [processVolumeQueues]
    puts the sample in front and keeps all the values it had. *)
Theorem processVolumeQueues_no_capacity st name q :
  runnable (volumeQueues st) →
  own (volumeQueues st) !! name = Some q →
  VolumeQueue.totalSamples q = None →
  ∃ st' q', processVolumeQueues st = Normal st' ∧
    own (volumeQueues st') !! name = Some q' ∧
    VolumeQueue.values q' = getVolume_default st :: VolumeQueue.values q.
Proof.
  intros Hrun Hq HC.
  destruct (processVolumeQueues_spec st Hrun) as (st' & Hst' & _ & _ & _ & _ & _ & _ & Hown).
  destruct (Hown name q Hq) as (q' & Hq' & Hpass).
  exists st', q'. split; [done|]. split; [done|].
  unfold processQueue in Hpass. rewrite HC in Hpass.
  cbn [numeric default from_option] in Hpass. rewrite evict_NaN in Hpass.
  cbn in Hpass. by injection Hpass as <-.
Qed.

Lemma processVolumeQueues_no_capacity_witness :
  (runnable (volumeQueues (registerQueue "bass" None None None sampleState)) ∧
   own (volumeQueues (registerQueue "bass" None None None sampleState)) !! "bass" =
     Some (bootstrap None None None) ∧
   VolumeQueue.totalSamples (bootstrap None None None) = None) ∧
  ∃ st' q',
    processVolumeQueues (registerQueue "bass" None None None sampleState) = Normal st' ∧
    own (volumeQueues st') !! "bass" = Some q' ∧
    VolumeQueue.values q' =
      getVolume_default (registerQueue "bass" None None None sampleState) :: [zero; one].
Proof.
  split; [split; [evaluate | split; reflexivity]|].
  apply (processVolumeQueues_no_capacity
           (registerQueue "bass" None None None sampleState) "bass"
           (bootstrap None None None)); [evaluate | reflexivity | reflexivity].
Defined.

End Queues.

(** ** getVolume, continued *)

Section Endpoints.

Implicit Types (st : State) (s d a m t e n q : Qc).

Lemma getVolume_twoPhase st (i : nat) (pr : option number) s d a m t e n
    (nxt : Interval) :
  get segments (trackAnalysis st) !! (i + 1)%nat = Some nxt →
  loudness_start nxt = Fin n →
  getVolume st
    {| descriptor := Some (mkInterval (Fin s) (Fin d) (Fin a) (Fin m) (Fin t));
       index := Some i; elapsed := Some (Fin e); progress := pr |} =
  twoPhase (Fin a) (Fin m) (Fin t) (Fin d) (Fin e) (Fin n).
Proof.
  intros Hnxt Hn. unfold getVolume, successor, prop, numeric.
  cbn [index descriptor elapsed mbind option_bind from_option default
       loudness_max loudness_start loudness_max_time duration start].
  unfold id. rewrite Hnxt, Hn. unfold twoPhase.
  destruct (Fin e <? Fin t)%js.
  - by rewrite clamp_is_clamp01, interpolateNumber_lerp.
  - by rewrite elapsed_shift, clamp_is_clamp01, interpolateNumber_lerp.
Qed.

Lemma div_finite x y : y ≠ 0 → (Fin x / Fin y)%js = Fin (x / y) ∧ x / y * y = x.
Proof.
  intros Hy. split; [cbn [div]; by rewrite decide_False|]. by field.
Qed.

Lemma clamp01_low q : q ≤ 0 → clamp01 (Fin q) = Fin 0 ∨ clamp01 (Fin q) = Fin q ∧ q = 0.
Proof.
  intros Hq. unfold clamp01, zero, one, of_Z. cbn [ltb].
  case_bool_decide as H0; [left; by rewrite Z2Qc_inj_0|].
  rewrite Z2Qc_inj_0 in H0. apply Qcnot_lt_le in H0.
  rewrite bool_decide_eq_false_2.
  - right. split; [done|]. by apply Qcle_antisym.
  - rewrite Z2Qc_inj_1. apply Qcle_not_lt. eapply Qcle_trans; [done|].
    by apply Qclt_le_weak.
Qed.

Lemma clamp01_high q : 1 ≤ q → clamp01 (Fin q) = Fin 1 ∨ clamp01 (Fin q) = Fin q ∧ q = 1.
Proof.
  intros Hq. unfold clamp01, zero, one, of_Z. cbn [ltb].
  rewrite bool_decide_eq_false_2.
  - case_bool_decide as H1; [left; by rewrite Z2Qc_inj_1|].
    rewrite Z2Qc_inj_1 in H1. apply Qcnot_lt_le in H1.
    right. split; [done|]. by apply Qcle_antisym.
  - rewrite Z2Qc_inj_0. apply Qcle_not_lt. eapply Qcle_trans; [|done]. done.
Qed.

Lemma lerp_0 a m : lerp (Fin a) (Fin m) (Fin 0) = Fin a.
Proof. unfold lerp. simpl. f_equal. ring. Qed.

Lemma lerp_1 a m : lerp (Fin a) (Fin m) (Fin 1) = Fin m.
Proof. unfold lerp. simpl. f_equal. ring. Qed.

Lemma quotient_nonpos x y : 0 < y → x ≤ 0 → x / y ≤ 0.
Proof.
  intros Hy Hx. destruct (div_finite x y) as [_ Hq]; [by apply Qclt_not_eq in Hy; auto|].
  set (q := x / y) in *. clearbody q. subst x.
  unfold Qcle, Qclt in *. cbn [this Qcmult Q2Qc] in *.
  rewrite ?Qred_correct in *. nra.
Qed.

Lemma quotient_ge_1 x y : 0 < y → y ≤ x → 1 ≤ x / y.
Proof.
  intros Hy Hx. destruct (div_finite x y) as [_ Hq]; [by apply Qclt_not_eq in Hy; auto|].
  set (q := x / y) in *. clearbody q. subst x.
  unfold Qcle, Qclt in *. cbn [this Qcmult Q2Qc] in *.
  rewrite ?Qred_correct in *. nra.
Qed.



End Endpoints.
